(** * Qwen tool-call converter (src/converters/qwen.py)

    A shallow embedding of [QwenToolCallConverter]: the four pure operations
    [parse_tool_calls], [has_partial_tool_call], [is_complete_tool_call] and
    [_clean_content], together with the fragments of Python's [str] and [re]
    they are written with.

    Python strings are sequences of Unicode code points; they are modelled
    as lists of code points.  The standard-library calls whose results the
    converter only passes around ([json.loads], [json.dumps], the builtin
    [hash]) are the fields of the class [Runtime]; [str.lower], which
    [can_handle_model] calls, is the field of the class [Casing].  The
    [print] calls of [parse_tool_calls] write a trace and [json.dumps]
    encodes what the loop has built: both are taken to return, and the
    trace is left out, as are the constructor, which only reads the
    configuration, and the streaming handler, whose code is in the base
    class. *)

From Stdlib Require Import Strings.String Strings.Ascii Numbers.DecimalString.
From Stdlib Require Import Bool Arith ZArith NArith Lia List.
Import ListNotations.

(** ** Python [str] *)

Definition char := N.
Definition str := list char.

(** A string literal of the source, as code points. *)
Definition lit (s : String.string) : str :=
  map N_of_ascii (list_ascii_of_string s).

Fixpoint str_eqb (a b : str) : bool :=
  match a, b with
  | [], [] => true
  | x :: a', y :: b' => N.eqb x y && str_eqb a' b'
  | _, _ => false
  end.

(** [s.startswith(p)] *)
Fixpoint startswith (p s : str) : bool :=
  match p, s with
  | [], _ => true
  | x :: p', y :: s' => N.eqb x y && startswith p' s'
  | _ :: _, [] => false
  end.

(** [s.endswith(p)] *)
Definition endswith (p s : str) : bool := startswith (rev p) (rev s).

(** [p in s] *)
Fixpoint contains (p s : str) : bool :=
  startswith p s ||
  match s with
  | [] => false
  | _ :: s' => contains p s'
  end.

(** [str.isspace] on one code point: the characters [str.strip()] removes. *)
Definition is_space (c : char) : bool :=
  ((9 <=? c) && (c <=? 13) || (28 <=? c) && (c <=? 32) ||
   (c =? 133) || (c =? 160) || (c =? 5760) ||
   (8192 <=? c) && (c <=? 8202) || (c =? 8232) || (c =? 8233) ||
   (c =? 8239) || (c =? 8287) || (c =? 12288))%N.

Fixpoint dropwhile (f : char -> bool) (s : str) : str :=
  match s with
  | [] => []
  | c :: s' => if f c then dropwhile f s' else s
  end.

Definition lstrip (s : str) : str := dropwhile is_space s.
Definition rstrip (s : str) : str := rev (dropwhile is_space (rev s)).

(** [s.strip()] *)
Definition strip (s : str) : str := rstrip (lstrip s).

(** [s.replace(old, '')]: the occurrences of [old] are removed from left to
    right, without overlap; [skip] counts the characters of the occurrence
    being removed that are still ahead. *)
Fixpoint remove_from (old s : str) (skip : nat) : str :=
  match s with
  | [] => []
  | c :: s' =>
      match skip with
      | S k => remove_from old s' k
      | O =>
          if startswith old s
          then remove_from old s' (length old - 1)
          else c :: remove_from old s' 0
      end
  end.

Definition remove_all (old s : str) : str :=
  match old with
  | [] => s
  | _ :: _ => remove_from old s 0
  end.

(** [str(n)] for an integer. *)
Definition str_of_Z (z : Z) : str := lit (NilZero.string_of_int (Z.to_int z)).

(** ** The fragment of [re] the converter uses

    Every pattern of the source is a sequence of literal text and lazy
    wildcards [.*?] or [(.*?)], compiled with [re.DOTALL], so that the
    wildcard ranges over every character, newlines included. *)
Module Re.

Inductive item :=
| Lit (s : str)          (* literal text *)
| Lazy (capture : bool). (* [.*?], or [(.*?)] when [capture] *)

Definition pattern := list item.

(** A match: the captured groups in order and the text left after it. *)
Definition matched := (list str * str)%type.

(** Consume [p] from the front of [s]. *)
Fixpoint strip_prefix (p s : str) : option str :=
  match p, s with
  | [], _ => Some s
  | x :: p', y :: s' => if N.eqb x y then strip_prefix p' s' else None
  | _ :: _, [] => None
  end.

(** The backtracking of a lazy wildcard: the rest of the pattern [k] is
    tried after 0, 1, 2, ... characters, and the first success wins. *)
Fixpoint lazy_loop (k : str -> option matched) (capture : bool)
         (acc s : str) : option matched :=
  match k s with
  | Some (gs, r) => Some (if capture then rev acc :: gs else gs, r)
  | None =>
      match s with
      | [] => None
      | c :: s' => lazy_loop k capture (c :: acc) s'
      end
  end.

(** Match the pattern at the start of [s]. *)
Fixpoint match_here (p : pattern) (s : str) : option matched :=
  match p with
  | [] => Some ([], s)
  | Lit l :: p' =>
      match strip_prefix l s with
      | Some s' => match_here p' s'
      | None => None
      end
  | Lazy c :: p' => lazy_loop (match_here p') c [] s
  end.

(** [re.search(p, s)] as a truth value: the pattern matches somewhere. *)
Fixpoint search (p : pattern) (s : str) : bool :=
  match match_here p s with
  | Some _ => true
  | None =>
      match s with
      | [] => false
      | _ :: s' => search p s'
      end
  end.

(** The scan shared by [re.findall] and [re.sub]: matches are looked for
    from left to right and do not overlap; [skip] counts the characters
    of the last match that are still ahead. *)
Fixpoint findall_from (p : pattern) (s : str) (skip : nat) : list (list str) :=
  match s with
  | [] =>
      match skip, match_here p [] with
      | O, Some (gs, _) => [gs]
      | _, _ => []
      end
  | _ :: s' =>
      match skip with
      | S k => findall_from p s' k
      | O =>
          match match_here p s with
          | Some (gs, r) => gs :: findall_from p s' (length s - length r - 1)
          | None => findall_from p s' 0
          end
      end
  end.

(** [re.findall(p, s)]: the groups of every match, in document order. *)
Definition findall (p : pattern) (s : str) : list (list str) :=
  findall_from p s 0.

(** [re.sub(p, '', s)]. *)
Fixpoint sub_from (p : pattern) (s : str) (skip : nat) : str :=
  match s with
  | [] => []
  | c :: s' =>
      match skip with
      | S k => sub_from p s' k
      | O =>
          match match_here p s with
          | Some (_, r) =>
              match length s - length r with
              | O => c :: sub_from p s' 0
              | S n => sub_from p s' n
              end
          | None => c :: sub_from p s' 0
          end
      end
  end.

Definition sub (p : pattern) (s : str) : str := sub_from p s 0.

End Re.

(** ** Exceptions

    [json.loads] either returns or raises; the converter catches
    [json.JSONDecodeError] and nothing else, so every other exception class
    is one constructor. *)
Inductive exn := JSONDecodeError | OtherError.

Inductive result (A : Type) :=
| Ok (a : A)
| Raise (e : exn).

Arguments Ok {A} a.
Arguments Raise {A} e.

Definition bind {A B} (m : result A) (f : A -> result B) : result B :=
  match m with
  | Ok a => f a
  | Raise e => Raise e
  end.

Notation "x <- m ;; k" := (bind m (fun x => k))
  (at level 61, m at next level, right associativity).

(** [try: body  except json.JSONDecodeError: handler] *)
Definition try_except_json {A} (body handler : result A) : result A :=
  match body with
  | Raise JSONDecodeError => handler
  | _ => body
  end.

(** ** What the converter takes from the standard library *)

(** A value stored in [arguments]: the raw string or what [json.loads]
    returned. *)
Inductive pyval (J : Type) :=
| PStr (s : str)
| PJson (v : J).

Arguments PStr {J} s.
Arguments PJson {J} v.

(** A [dict] with string keys, in insertion order. *)
Definition dict (V : Type) := list (str * V).

Class Runtime := {
  json_value : Type;
  json_loads : str -> result json_value;
  json_dumps : dict (pyval json_value) -> str;  (* ensure_ascii=False *)
  hash : str -> Z
}.

(** [d[k] = v]: an existing key keeps its place and takes the new value, a
    new key goes last. *)
Fixpoint dict_set {V} (k : str) (v : V) (d : dict V) : dict V :=
  match d with
  | [] => [(k, v)]
  | (k', v') :: d' =>
      if str_eqb k' k then (k', v) :: d' else (k', v') :: dict_set k v d'
  end.

Fixpoint dict_get {V} (k : str) (d : dict V) : option V :=
  match d with
  | [] => None
  | (k', v') :: d' => if str_eqb k' k then Some v' else dict_get k d'
  end.

(** ** QwenToolCallConverter *)
Module Qwen.

Import Re.

Record FunctionCall := { name : str; arguments : str }.
Record ToolCall := { id : str; type : str; function : FunctionCall }.

(** [r'<function=(.*?)>(.*?)</function>'] *)
Definition function_pattern : pattern :=
  [Lit (lit "<function="); Lazy true; Lit (lit ">"); Lazy true;
   Lit (lit "</function>")].

(** [r'<parameter=(.*?)>(.*?)</parameter>'] *)
Definition param_pattern : pattern :=
  [Lit (lit "<parameter="); Lazy true; Lit (lit ">"); Lazy true;
   Lit (lit "</parameter>")].

(** [r'<tool_call>.*?</tool_call>'] *)
Definition wrapped_span : pattern :=
  [Lit (lit "<tool_call>"); Lazy false; Lit (lit "</tool_call>")].

(** [r'<function=.*?</function>'] *)
Definition function_span : pattern :=
  [Lit (lit "<function="); Lazy false; Lit (lit "</function>")].

(** [re.findall] with two groups returns pairs. *)
Definition as_pair (gs : list str) : str * str :=
  match gs with
  | [a; b] => (a, b)
  | _ => ([], [])
  end.

Definition findall2 (p : pattern) (s : str) : list (str * str) :=
  map as_pair (findall p s).

Section WithRuntime.

Context {R : Runtime}.

(** The body of the loop over [param_matches] (lines 58-73). *)
Definition store_param (arguments : dict (pyval json_value))
           (param : str * str) : result (dict (pyval json_value)) :=
  let key := strip (fst param) in
  let value := strip (snd param) in
  try_except_json
    (if startswith (lit "[") value || startswith (lit "{") value
     then parsed_value <- json_loads value ;;
          Ok (dict_set key (PJson parsed_value) arguments)
     else Ok (dict_set key (PStr value) arguments))
    (Ok (dict_set key (PStr value) arguments)).

Fixpoint store_params (param_matches : list (str * str))
         (arguments : dict (pyval json_value))
  : result (dict (pyval json_value)) :=
  match param_matches with
  | [] => Ok arguments
  | param :: rest =>
      arguments' <- store_param arguments param ;;
      store_params rest arguments'
  end.

(** The key hashed into the id: [f"{function_name}_{i}_{len(tool_calls)}"]. *)
Definition id_key (function_name : str) (i n : nat) : str :=
  function_name ++ lit "_" ++ str_of_Z (Z.of_nat i) ++ lit "_" ++
  str_of_Z (Z.of_nat n).

(** The loop over [enumerate(function_matches)] (lines 48-86), started
    at index [i] with the calls collected so far. *)
Fixpoint parse_blocks (function_matches : list (str * str)) (i : nat)
         (tool_calls : list ToolCall) : result (list ToolCall) :=
  match function_matches with
  | [] => Ok tool_calls
  | (function_name, params_block) :: rest =>
      let function_name := strip function_name in
      let param_matches := findall2 param_pattern params_block in
      arguments <- store_params param_matches [] ;;
      let tool_call :=
        {| id := str_of_Z
                   (hash (id_key function_name i (length tool_calls))
                    mod 1000000000);
           type := lit "function";
           function := {| name := function_name;
                          arguments := json_dumps arguments |} |} in
      parse_blocks rest (S i) (tool_calls ++ [tool_call])
  end.

Definition parse_tool_calls (content : str) : result (list ToolCall) :=
  parse_blocks (findall2 function_pattern content) 0 [].

End WithRuntime.

Definition markers : list str :=
  [lit "<tool_call>"; lit "</tool_call>"; lit "<function=";
   lit "</function>"; lit "<parameter="; lit "</parameter>"].

(** [marker[:i]] for [i] in [range(1, len(marker))]. *)
Definition partial_markers (marker : str) : list str :=
  map (fun i => firstn i marker) (seq 1 (length marker - 1)).

Definition has_partial_tool_call (content : str) : bool :=
  if existsb (fun marker => contains marker content) markers then true
  else existsb
         (fun marker =>
            existsb (fun m => endswith m content) (partial_markers marker))
         markers.

Definition is_complete_tool_call (content : str) : bool :=
  if contains (lit "<tool_call>") content
  then contains (lit "</tool_call>") content
  else search function_span content.

(** The text after the two [re.sub] calls (lines 117-119). *)
Definition remove_spans (content : str) : str :=
  sub function_span (sub wrapped_span content).

(** The two lone-tag checks (lines 122-125). *)
Definition strip_lone_tags (content : str) : str :=
  let content :=
    if contains (lit "<tool_call>") content &&
       negb (contains (lit "</tool_call>") content)
    then remove_all (lit "<tool_call>") content
    else content in
  if contains (lit "</tool_call>") content &&
     negb (contains (lit "<tool_call>") content)
  then remove_all (lit "</tool_call>") content
  else content.

Definition _clean_content (content : str) : str :=
  strip (strip_lone_tags (remove_spans content)).

End Qwen.

Import Qwen.

(** ** A small runtime for running the converter on examples

    Its [json.loads] decodes arrays of unsigned integers written without
    blanks and raises [JSONDecodeError] on everything else; its
    [json.dumps] writes strings without escapes; its [hash] is a
    polynomial over the code points. *)
Module Sample.

Definition digit_of (c : char) : option Z :=
  if ((48 <=? c) && (c <=? 57))%N then Some (Z.of_N c - 48)%Z else None.

Fixpoint items (s : str) (cur : option Z) (acc : list Z) : result (list Z) :=
  match s with
  | [] => Raise JSONDecodeError
  | c :: s' =>
      match digit_of c, cur with
      | Some d, Some n => items s' (Some (10 * n + d)%Z) acc
      | Some d, None => items s' (Some d) acc
      | None, None => Raise JSONDecodeError
      | None, Some n =>
          if (c =? 44)%N then items s' None (acc ++ [n])
          else if (c =? 93)%N
               then match s' with
                    | [] => Ok (acc ++ [n])
                    | _ :: _ => Raise JSONDecodeError
                    end
               else Raise JSONDecodeError
      end
  end.

Definition loads (s : str) : result (list Z) :=
  match s with
  | 91%N :: 93%N :: [] => Ok []
  | 91%N :: s' => items s' None []
  | _ => Raise JSONDecodeError
  end.

Fixpoint join (sep : str) (l : list str) : str :=
  match l with
  | [] => []
  | [x] => x
  | x :: l' => x ++ sep ++ join sep l'
  end.

Definition quoted (s : str) : str := 34%N :: s ++ [34%N].

Definition dumps_value (v : pyval (list Z)) : str :=
  match v with
  | PStr s => quoted s
  | PJson xs => lit "[" ++ join (lit ", ") (map str_of_Z xs) ++ lit "]"
  end.

Definition dumps (d : dict (pyval (list Z))) : str :=
  lit "{" ++
  join (lit ", ")
       (map (fun kv => quoted (fst kv) ++ lit ": " ++ dumps_value (snd kv)) d)
  ++ lit "}".

Definition poly_hash (s : str) : Z :=
  fold_left (fun h c => (31 * h + Z.of_N c)%Z) s 7%Z.

Definition runtime : Runtime :=
  {| json_value := list Z;
     json_loads := loads;
     json_dumps := dumps;
     hash := poly_hash |}.

End Sample.

(** The sample runtime with a recursion limit in its [json.loads]: a value
    that opens more than two arrays in a row makes it raise an exception
    that is not a [JSONDecodeError], as a deeply nested value makes
    CPython's [json.loads] raise [RecursionError]. *)
Module Limited.

Fixpoint opening (s : str) : nat :=
  match s with
  | 91%N :: s' => S (opening s')
  | _ => 0
  end.

Definition loads (s : str) : result (list Z) :=
  if 2 <? opening s then Raise OtherError else Sample.loads s.

Definition runtime : Runtime :=
  {| json_value := list Z;
     json_loads := loads;
     json_dumps := Sample.dumps;
     hash := Sample.poly_hash |}.

End Limited.

(** ** The vocabulary of the claims *)

Import Re.

Arguments lit : simpl never.

(** No marker of the dialect occurs in [content]. *)
Definition no_markup (content : str) : bool :=
  forallb (fun marker => negb (contains marker content)) markers.

(** [content] ends in the beginning of a marker: a non-empty strict prefix
    of one of the markers is a suffix of [content]. *)
Definition ends_in_partial_marker (content : str) : Prop :=
  exists marker k u,
    In marker markers /\ 0 < k < length marker /\
    content = u ++ firstn k marker.

(** No proper suffix of [c] is a prefix of [c]: two occurrences of [c]
    cannot overlap. *)
Definition unbordered (c : str) : bool :=
  forallb (fun j => negb (startswith (skipn j c) c)) (seq 1 (length c - 1)).

(** ** A function block as it is written *)

Definition param_block (k v : str) : str :=
  lit "<parameter=" ++ k ++ lit ">" ++ v ++ lit "</parameter>".

Definition function_block (name body : str) : str :=
  lit "<function=" ++ name ++ lit ">" ++ body ++ lit "</function>".

(** A parameter of a block: its name, its value, and the text between its
    closing tag and what comes next. *)
Definition written := (str * str * str)%type.
Definition w_name (w : written) : str := fst (fst w).
Definition w_value (w : written) : str := snd (fst w).
Definition w_after (w : written) : str := snd w.

Fixpoint params_text (ps : list written) : str :=
  match ps with
  | [] => []
  | w :: ps' => param_block (w_name w) (w_value w) ++ w_after w ++ params_text ps'
  end.

(** The block is one function block with the parameters [ps]: no [>] in
    the names, no [</parameter>] in a value, no [<] in the text between
    the parameters, no [</function>] in the body. *)
Definition well_formed (name before : str) (ps : list written) : bool :=
  negb (contains (lit ">") name) &&
  negb (existsb (N.eqb 60) before) &&
  forallb (fun w => negb (contains (lit ">") (w_name w)) &&
                    negb (contains (lit "</parameter>") (w_value w)) &&
                    negb (existsb (N.eqb 60) (w_after w))) ps &&
  negb (contains (lit "</function>") (before ++ params_text ps)).

(** The distinct keys of a list, in the order of their first occurrence. *)
Fixpoint first_seen (keys : list str) : list str :=
  match keys with
  | [] => []
  | k :: keys' =>
      k :: filter (fun k' => negb (str_eqb k k')) (first_seen keys')
  end.

(** The value of the last entry with key [k]. *)
Definition last_value {V} (k : str) (entries : list (str * V)) : option V :=
  option_map snd (find (fun e => str_eqb (fst e) k) (rev entries)).

Definition dict_of {V} (entries : list (str * V)) (d : dict V) : dict V :=
  fold_left (fun d e => dict_set (fst e) (snd e) d) entries d.

Section Entries.

Context {R : Runtime}.

Definition looks_json (value : str) : bool :=
  startswith (lit "[") value || startswith (lit "{") value.

(** [json.loads] is not asked, or answers with a value or a
    [JSONDecodeError]. *)
Definition decodes (value : str) : bool :=
  negb (looks_json value) ||
  match json_loads value with
  | Raise OtherError => false
  | _ => true
  end.

(** The value the spec stores for a raw value: decoded when it begins
    with [[] or [{] and decodes, the raw string otherwise. *)
Definition decoded (value : str) : pyval json_value :=
  if looks_json value
  then match json_loads value with
       | Ok v => PJson v
       | Raise _ => PStr value
       end
  else PStr value.

Definition entries (ps : list written) : list (str * pyval json_value) :=
  map (fun w => (strip (w_name w), decoded (strip (w_value w)))) ps.

(** [json.loads] is asked and answers with an exception that is not a
    [JSONDecodeError]. *)
Definition raises_other (value : str) : bool :=
  looks_json value &&
  match json_loads value with
  | Raise OtherError => true
  | _ => false
  end.

End Entries.

Definition str_eq_dec : forall a b : str, {a = b} + {a <> b} :=
  list_eq_dec N.eq_dec.

(** The text of [n] calls of [f] without parameters, one after the other. *)
Definition many_blocks (n : nat) : str :=
  concat (repeat (function_block (lit "f") []) n).

(** [P] is a prefix of [T] and shorter than [T]. *)
Definition strict_prefix (P T : str) : bool :=
  startswith P T && (length P <? length T).

(** [T] is one span of the pattern: the pattern matches at the start of
    [T] and its match ends where [T] ends. *)
Definition is_single_span (p : pattern) (T : str) : bool :=
  match match_here p T with
  | Some (_, []) => true
  | _ => false
  end.

(** No occurrence of [b] begins inside a leading [a]. *)
Definition no_clash (a b : str) : bool :=
  forallb (fun k => negb (startswith (skipn k a) b || startswith b (skipn k a)))
          (seq 0 (length a)).

(** Three parameters of a sample block: [city] is written twice. *)
Definition sample_params : list written :=
  [(lit "city", lit " Paris ", lit " ");
   (lit "days", lit "[1,2,3]", []);
   (lit " city", lit "Lyon", [])].

(** ** Model selection (lines 15-33)

    [can_handle_model] lower-cases the name with [str.lower], whose
    Unicode case tables are taken as a parameter, and tries the patterns
    of [QWEN_MODEL_PATTERNS] with [re.match], compiled without
    [re.DOTALL]: the wildcard [.*] is greedy and stops at a newline. *)

Class Casing := {
  lower : str -> str
}.

Module ReGreedy.

Inductive token :=
| Text (s : str) (* literal text *)
| DotStar.       (* [.*] *)

(** The backtracking of a greedy wildcard: the longest run of characters
    other than the newline is tried first, then shorter ones. *)
Fixpoint greedy_loop (k : str -> option str) (s : str) : option str :=
  match s with
  | [] => k []
  | c :: s' =>
      if N.eqb c 10 then k s
      else match greedy_loop k s' with
           | Some r => Some r
           | None => k s
           end
  end.

(** Match the pattern at the start of [s]; the result is the text left
    after the match. *)
Fixpoint match_start (p : list token) (s : str) : option str :=
  match p with
  | [] => Some s
  | Text l :: p' =>
      match Re.strip_prefix l s with
      | Some s' => match_start p' s'
      | None => None
      end
  | DotStar :: p' => greedy_loop (match_start p') s
  end.

(** [re.match(p, s)] as a truth value. *)
Definition re_match (p : list token) (s : str) : bool :=
  match match_start p s with
  | Some _ => true
  | None => false
  end.

End ReGreedy.

(** [[r'qwen.*']] *)
Definition QWEN_MODEL_PATTERNS : list (list ReGreedy.token) :=
  [[ReGreedy.Text (lit "qwen"); ReGreedy.DotStar]].

Definition can_handle_model {C : Casing} (model_name : str) : bool :=
  match model_name with
  | [] => false
  | _ :: _ =>
      let model_lower := lower model_name in
      existsb (fun pattern => ReGreedy.re_match pattern model_lower)
              QWEN_MODEL_PATTERNS
  end.

(** ** The vocabulary of the further properties *)

(** [s] is [t] with some characters left out. *)
Inductive subseq : str -> str -> Prop :=
| subseq_nil : subseq [] []
| subseq_skip (c : char) (s t : str) : subseq s t -> subseq s (c :: t)
| subseq_keep (c : char) (s t : str) : subseq s t -> subseq (c :: s) (c :: t).

(** A function block in a text: what stands before it, its name and its
    body. *)
Definition placed := (str * str * str)%type.
Definition b_before (b : placed) : str := fst (fst b).
Definition b_name (b : placed) : str := snd (fst b).
Definition b_body (b : placed) : str := snd b.

(** The text of the blocks [bs] in a row, each after the text that stands
    before it, followed by [post]. *)
Fixpoint calls_text (bs : list placed) (post : str) : str :=
  match bs with
  | [] => post
  | b :: bs' =>
      b_before b ++ function_block (b_name b) (b_body b) ++ calls_text bs' post
  end.

(** No [<function=] in the text before a block, no [>] in its name, no
    [</function>] in its body. *)
Definition placed_ok (b : placed) : bool :=
  negb (contains (lit "<function=") (b_before b)) &&
  negb (contains (lit ">") (b_name b)) &&
  negb (contains (lit "</function>") (b_body b)).

(** One parameter whose value opens three arrays in a row. *)
Definition deep_params : list written := [(lit "x", lit "[[[1]]]", [])].

(** A reply with two calls, wrapped and surrounded by prose. *)
Definition sample_calls : list placed :=
  [(lit "Let me check. <tool_call> ", lit "get_weather",
    lit "<parameter=city>Paris</parameter>");
   (lit "</tool_call> <tool_call>", lit " get_time ", [])].

Definition sample_post : str := lit "</tool_call> Done.".

(** * Properties *)

(** ** Strings *)

Lemma str_eqb_eq (a b : str) : str_eqb a b = true <-> a = b.
Proof.
  revert b; induction a as [|x a IH]; intros [|y b]; simpl;
    try (split; [discriminate | discriminate]); try tauto.
  rewrite andb_true_iff, N.eqb_eq, IH.
  split; [intros [-> ->]; reflexivity | intros [= -> ->]; auto].
Qed.

Lemma str_eqb_refl (a : str) : str_eqb a a = true.
Proof. apply str_eqb_eq; reflexivity. Qed.

Lemma startswith_spec (p s : str) :
  startswith p s = true <-> exists r, s = p ++ r.
Proof.
  revert s; induction p as [|x p IH]; intros s; simpl.
  - split; [intros _; exists s; reflexivity | reflexivity].
  - destruct s as [|y s].
    + split; [discriminate | intros [r Hr]; discriminate].
    + rewrite andb_true_iff, N.eqb_eq, IH. split.
      * intros [-> [r ->]]. exists r; reflexivity.
      * intros [r [= -> ->]]. split; [reflexivity | exists r; reflexivity].
Qed.

Lemma startswith_app (p r : str) : startswith p (p ++ r) = true.
Proof. apply startswith_spec; exists r; reflexivity. Qed.

Lemma startswith_nil_r (p : str) : startswith p [] = true -> p = [].
Proof. destruct p; [reflexivity | discriminate]. Qed.

(** [contains] is the substring test. *)
Lemma contains_spec (p s : str) :
  contains p s = true <-> exists a b, s = a ++ p ++ b.
Proof.
  induction s as [|c s IH]; simpl.
  - rewrite orb_false_r, startswith_spec. split.
    + intros [r Hr]. exists [], r; exact Hr.
    + intros [a [b H]]. destruct a; [exists b; exact H | discriminate].
  - rewrite orb_true_iff, startswith_spec, IH. split.
    + intros [[r Hr] | [a [b ->]]].
      * exists [], r; exact Hr.
      * exists (c :: a), b; reflexivity.
    + intros [[|x a] [b H]].
      * left; exists b; exact H.
      * right. injection H as _ ->. exists a, b; reflexivity.
Qed.

Lemma contains_app_intro (a p b : str) : contains p (a ++ p ++ b) = true.
Proof. apply contains_spec; exists a, b; reflexivity. Qed.

Lemma contains_false_tail (p : str) (c : char) (s : str) :
  contains p (c :: s) = false ->
  startswith p (c :: s) = false /\ contains p s = false.
Proof. simpl. intros H. apply orb_false_iff in H. exact H. Qed.

Lemma contains_false_nonempty (p s : str) : contains p s = false -> p <> [].
Proof. intros H ->. destruct s; discriminate. Qed.

(** A substring of a prefix is a substring of the whole. *)
Lemma contains_prefix (p s z : str) :
  contains p s = true -> contains p (s ++ z) = true.
Proof.
  rewrite !contains_spec. intros [a [b ->]].
  exists a, (b ++ z). now rewrite <- !app_assoc.
Qed.

Lemma contains_too_short (p s : str) :
  length s < length p -> contains p s = false.
Proof.
  intros Hlen. destruct (contains p s) eqn:E; [|reflexivity].
  apply contains_spec in E. destruct E as [a [b ->]].
  rewrite !length_app in Hlen. lia.
Qed.

(** *** [strip] *)

Lemma dropwhile_head (f : char -> bool) (s : str) (c : char) (t : str) :
  dropwhile f s = c :: t -> f c = false.
Proof.
  induction s as [|x s IH]; simpl; [discriminate|].
  destruct (f x) eqn:E; [exact IH | intros [= <- _]; exact E].
Qed.

Lemma dropwhile_idem (f : char -> bool) (s : str) :
  dropwhile f (dropwhile f s) = dropwhile f s.
Proof.
  induction s as [|x s IH]; simpl; [reflexivity|].
  destruct (f x) eqn:E; [exact IH | simpl; now rewrite E].
Qed.

Lemma dropwhile_app_last (f : char -> bool) (s : str) (c : char) :
  f c = false -> dropwhile f (s ++ [c]) = dropwhile f s ++ [c].
Proof.
  intros Hc. induction s as [|x s IH]; simpl.
  - now rewrite Hc.
  - destruct (f x); [exact IH | reflexivity].
Qed.

Lemma rstrip_cons (c : char) (t : str) :
  is_space c = false -> rstrip (c :: t) = c :: rstrip t.
Proof.
  intros Hc. unfold rstrip. simpl rev.
  rewrite dropwhile_app_last by exact Hc.
  rewrite rev_app_distr. reflexivity.
Qed.

Lemma rstrip_idem (s : str) : rstrip (rstrip s) = rstrip s.
Proof. unfold rstrip. now rewrite rev_involutive, dropwhile_idem. Qed.

Lemma strip_idem (s : str) : strip (strip s) = strip s.
Proof.
  unfold strip, lstrip.
  destruct (dropwhile is_space s) as [|c t] eqn:E; [reflexivity|].
  pose proof (dropwhile_head _ _ _ _ E) as Hc.
  rewrite rstrip_cons by exact Hc. simpl. rewrite Hc.
  rewrite rstrip_cons by exact Hc. now rewrite rstrip_idem.
Qed.

(** ** Matching *)
Lemma strip_prefix_spec (p s r : str) :
  strip_prefix p s = Some r <-> s = p ++ r.
Proof.
  revert s; induction p as [|x p IH]; intros s; simpl.
  - split; [intros [= ->]; reflexivity | intros ->; reflexivity].
  - destruct s as [|y s]; [split; discriminate|].
    destruct (N.eqb_spec x y) as [->|Hne].
    + rewrite IH. split; [intros ->; reflexivity | intros [= ->]; reflexivity].
    + split; [discriminate | intros [= -> _]; contradiction].
Qed.

Lemma strip_prefix_app (p r : str) : strip_prefix p (p ++ r) = Some r.
Proof. now apply strip_prefix_spec. Qed.

Lemma strip_prefix_startswith (p s : str) :
  strip_prefix p s = None <-> startswith p s = false.
Proof.
  revert s; induction p as [|x p IH]; intros s; simpl.
  - split; discriminate.
  - destruct s as [|y s]; [tauto|].
    destruct (N.eqb x y); simpl; [apply IH | tauto].
Qed.

(** A pattern that begins with literal text matches only where that text
    stands. *)
Lemma match_here_lit_head (a : str) (p : pattern) (s : str) :
  startswith a s = false -> match_here (Lit a :: p) s = None.
Proof.
  intros H. simpl. apply strip_prefix_startswith in H. now rewrite H.
Qed.

Lemma match_here_lit (a : str) (p : pattern) (r : str) :
  match_here (Lit a :: p) (a ++ r) = match_here p r.
Proof. simpl. now rewrite strip_prefix_app. Qed.

(** What a lazy wildcard finds: the shortest text after which the rest of
    the pattern matches. *)
Lemma lazy_loop_sound (k : str -> option matched) (c : bool) (s acc : str)
      (gs : list str) (r : str) :
  lazy_loop k c acc s = Some (gs, r) ->
  exists x y gs',
    s = x ++ y /\ k y = Some (gs', r) /\
    gs = (if c then (rev acc ++ x) :: gs' else gs') /\
    (forall x1 x2, x = x1 ++ x2 -> x2 <> [] -> k (x2 ++ y) = None).
Proof.
  revert acc; induction s as [|h s IH]; intros acc; simpl.
  - destruct (k []) as [[gs' r']|] eqn:E; [|discriminate].
    intros [= <- <-]. exists [], [], gs'. simpl. rewrite ?app_nil_r.
    repeat split; auto.
    intros x1 x2 H. symmetry in H. apply app_eq_nil in H as [_ ->]. congruence.
  - destruct (k (h :: s)) as [[gs' r']|] eqn:E.
    + intros [= <- <-]. exists [], (h :: s), gs'. simpl. rewrite ?app_nil_r.
      repeat split; auto.
      intros x1 x2 H. symmetry in H. apply app_eq_nil in H as [_ ->]. congruence.
    + intros H. apply IH in H. destruct H as (x & y & gs' & -> & Hk & -> & Hmin).
      exists (h :: x), y, gs'. simpl rev. rewrite <- app_assoc. simpl.
      repeat split; auto.
      intros [|h1 x1] x2 Hx Hne; simpl in Hx.
      * subst x2. exact E.
      * injection Hx as _ Hx. now apply (Hmin x1 x2).
Qed.

Lemma lazy_loop_complete (k : str -> option matched) (c : bool) (x y acc : str)
      (gs' : list str) (r : str) :
  k y = Some (gs', r) ->
  (forall x1 x2, x = x1 ++ x2 -> x2 <> [] -> k (x2 ++ y) = None) ->
  lazy_loop k c acc (x ++ y) =
  Some (if c then (rev acc ++ x) :: gs' else gs', r).
Proof.
  intros Hk. revert acc; induction x as [|h x IH]; intros acc Hmin.
  - simpl. rewrite app_nil_r.
    destruct y; simpl; rewrite Hk; reflexivity.
  - assert (E0 : k (h :: x ++ y) = None)
      by (apply (Hmin [] (h :: x)); [reflexivity | discriminate]).
    simpl. rewrite E0. rewrite IH.
    + simpl. now rewrite <- app_assoc.
    + intros x1 x2 -> Hne. apply (Hmin (h :: x1) x2); auto.
Qed.

(** Nothing matches where the pattern's first literal does not occur. *)
Lemma search_absent (a : str) (p : pattern) (s : str) :
  contains a s = false -> search (Lit a :: p) s = false.
Proof.
  induction s as [|c s IH]; intros H.
  - simpl in H. rewrite orb_false_r in H.
    unfold search. now rewrite match_here_lit_head.
  - apply contains_false_tail in H as [H1 H2].
    change (search (Lit a :: p) (c :: s))
      with (match match_here (Lit a :: p) (c :: s) with
            | Some _ => true
            | None => search (Lit a :: p) s
            end).
    rewrite match_here_lit_head by exact H1. now apply IH.
Qed.

Lemma findall_absent (a : str) (p : pattern) (s : str) (skip : nat) :
  contains a s = false -> findall_from (Lit a :: p) s skip = [].
Proof.
  revert skip; induction s as [|c s IH]; intros skip H.
  - simpl in H. rewrite orb_false_r in H.
    unfold findall_from. rewrite match_here_lit_head by exact H.
    now destruct skip.
  - apply contains_false_tail in H as [H1 H2].
    change (findall_from (Lit a :: p) (c :: s) skip)
      with (match skip with
            | S k => findall_from (Lit a :: p) s k
            | O =>
                match match_here (Lit a :: p) (c :: s) with
                | Some (gs, r) =>
                    gs :: findall_from (Lit a :: p) s
                            (length (c :: s) - length r - 1)
                | None => findall_from (Lit a :: p) s 0
                end
            end).
    destruct skip; [|now apply IH].
    rewrite match_here_lit_head by exact H1. now apply IH.
Qed.

Lemma sub_absent (a : str) (p : pattern) (s : str) :
  contains a s = false -> sub (Lit a :: p) s = s.
Proof.
  unfold sub. induction s as [|c s IH]; intros H; [reflexivity|].
  apply contains_false_tail in H as [H1 H2].
  change (sub_from (Lit a :: p) (c :: s) 0)
    with (match match_here (Lit a :: p) (c :: s) with
          | Some (_, r) =>
              match length (c :: s) - length r with
              | O => c :: sub_from (Lit a :: p) s 0
              | S n => sub_from (Lit a :: p) s n
              end
          | None => c :: sub_from (Lit a :: p) s 0
          end).
  rewrite match_here_lit_head by exact H1. now rewrite IH.
Qed.

Lemma remove_all_absent (old s : str) :
  contains old s = false -> remove_all old s = s.
Proof.
  intros H. pose proof (contains_false_nonempty _ _ H) as Hne.
  destruct old as [|o old]; [congruence|]. unfold remove_all.
  induction s as [|c s IH]; [reflexivity|].
  apply contains_false_tail in H as [H1 H2].
  change (remove_from (o :: old) (c :: s) 0)
    with (if startswith (o :: old) (c :: s)
          then remove_from (o :: old) s (length (o :: old) - 1)
          else c :: remove_from (o :: old) s 0).
  rewrite H1. now rewrite IH.
Qed.

(** A successful search exhibits the first literal. *)
Lemma search_contains (a : str) (p : pattern) (s : str) :
  search (Lit a :: p) s = true -> contains a s = true.
Proof.
  intros H. destruct (contains a s) eqn:E; [reflexivity|].
  rewrite search_absent in H by exact E. discriminate.
Qed.

Lemma endswith_spec (p s : str) :
  endswith p s = true <-> exists u, s = u ++ p.
Proof.
  unfold endswith. rewrite startswith_spec. split.
  - intros [r Hr]. exists (rev r).
    rewrite <- (rev_involutive s), Hr, rev_app_distr, rev_involutive.
    reflexivity.
  - intros [u ->]. exists (rev u). now rewrite rev_app_distr.
Qed.

(** ** The detectors *)

Lemma no_markup_elim (content marker : str) :
  no_markup content = true -> In marker markers ->
  contains marker content = false.
Proof.
  unfold no_markup. rewrite forallb_forall. intros H Hin.
  apply H in Hin. now apply negb_true_iff in Hin.
Qed.

Lemma in_markers_cases (P : str -> Prop) :
  P (lit "<tool_call>") -> P (lit "</tool_call>") -> P (lit "<function=") ->
  P (lit "</function>") -> P (lit "<parameter=") -> P (lit "</parameter>") ->
  forall marker, In marker markers -> P marker.
Proof.
  intros H1 H2 H3 H4 H5 H6 marker Hin. unfold markers in Hin. simpl in Hin.
  repeat (destruct Hin as [<- | Hin]; [assumption|]). contradiction.
Qed.

Lemma marker_present (content marker : str) :
  In marker markers -> contains marker content = true ->
  has_partial_tool_call content = true.
Proof.
  intros Hin Hc. unfold has_partial_tool_call.
  assert (E : existsb (fun m => contains m content) markers = true)
    by (apply existsb_exists; exists marker; auto).
  now rewrite E.
Qed.

Lemma in_partial_markers (marker q : str) :
  In q (partial_markers marker) <->
  exists k, 0 < k < length marker /\ q = firstn k marker.
Proof.
  unfold partial_markers. rewrite in_map_iff. split.
  - intros [k [<- Hk]]. apply in_seq in Hk. exists k. split; [lia | reflexivity].
  - intros [k [Hk ->]]. exists k. split; [reflexivity | apply in_seq; lia].
Qed.

(** The second half of [has_partial_tool_call] is the suffix test. *)
Lemma partial_suffix_spec (content : str) :
  existsb (fun marker =>
             existsb (fun m => endswith m content) (partial_markers marker))
          markers = true
  <-> ends_in_partial_marker content.
Proof.
  rewrite existsb_exists. split.
  - intros [marker [Hin H]]. apply existsb_exists in H as [q [Hq He]].
    apply in_partial_markers in Hq as [k [Hk ->]].
    apply endswith_spec in He as [u ->].
    exists marker, k, u. auto.
  - intros (marker & k & u & Hin & Hk & ->). exists marker. split; [exact Hin|].
    apply existsb_exists. exists (firstn k marker). split.
    + apply in_partial_markers. exists k; auto.
    + apply endswith_spec. exists u; reflexivity.
Qed.

Lemma is_complete_function_open (content : str) :
  contains (lit "<tool_call>") content = false ->
  is_complete_tool_call content = true ->
  contains (lit "<function=") content = true.
Proof.
  unfold is_complete_tool_call. intros ->. apply search_contains.
Qed.

(** ** Cleaning *)

Lemma remove_spans_absent (content : str) :
  contains (lit "<tool_call>") content = false ->
  contains (lit "<function=") content = false ->
  remove_spans content = content.
Proof.
  intros H1 H2. unfold remove_spans, wrapped_span, function_span.
  rewrite (sub_absent _ _ _ H1). now apply sub_absent.
Qed.

Lemma strip_lone_tags_both (content : str) :
  contains (lit "<tool_call>") content =
  contains (lit "</tool_call>") content ->
  strip_lone_tags content = content.
Proof.
  intros H. unfold strip_lone_tags. rewrite H.
  destruct (contains (lit "</tool_call>") content) eqn:E; simpl;
    rewrite H, E; reflexivity.
Qed.

(** ** Parsing *)

Section Parsing.

Context {R : Runtime}.

Lemma parse_blocks_cons (function_name params_block : str)
      (rest : list (str * str)) (i : nat) (tool_calls : list ToolCall) :
  parse_blocks ((function_name, params_block) :: rest) i tool_calls =
  (arguments <- store_params (findall2 param_pattern params_block) [] ;;
   parse_blocks rest (S i)
     (tool_calls ++
      [{| id := str_of_Z
                  (hash (id_key (strip function_name) i (length tool_calls))
                   mod 1000000000);
          type := lit "function";
          function := {| name := strip function_name;
                         arguments := json_dumps arguments |} |}])).
Proof. reflexivity. Qed.

(** Every call of the result was either collected before or comes from
    one of the blocks, whose trimmed name it carries. *)
Lemma parse_blocks_names (function_matches : list (str * str)) :
  forall i tool_calls result,
    parse_blocks function_matches i tool_calls = Ok result ->
    forall tc, In tc result ->
      In tc tool_calls \/
      exists m, In m function_matches /\ name (function tc) = strip (fst m).
Proof.
  induction function_matches as [|[fn pb] rest IH]; intros i tool_calls result H tc Hin.
  - injection H as <-. now left.
  - rewrite parse_blocks_cons in H.
    destruct (store_params (findall2 param_pattern pb) []) as [args|e];
      [|discriminate].
    cbn [bind] in H. destruct (IH _ _ _ H tc Hin) as [Hold | [m [Hm Hn]]].
    + apply in_app_or in Hold as [Hold | [<- | []]].
      * now left.
      * right. exists (fn, pb). split; [now left | reflexivity].
    + right. exists m. split; [now right | exact Hn].
Qed.

End Parsing.

Lemma dropwhile_nil_iff (f : char -> bool) (s : str) :
  dropwhile f s = [] <-> forallb f s = true.
Proof.
  induction s as [|c s IH]; simpl; [tauto|].
  destruct (f c); simpl; [exact IH | split; discriminate].
Qed.

(** Trimming leaves nothing exactly when the text is blank. *)
Lemma strip_nil_iff (s : str) : strip s = [] <-> forallb is_space s = true.
Proof.
  rewrite <- dropwhile_nil_iff. unfold strip, lstrip.
  destruct (dropwhile is_space s) as [|c t] eqn:E.
  - split; reflexivity.
  - rewrite rstrip_cons by exact (dropwhile_head _ _ _ _ E).
    split; discriminate.
Qed.

(** ** Parameter values *)

Lemma dict_get_set {V} (k k' : str) (v : V) (d : dict V) :
  dict_get k (dict_set k' v d) =
  if str_eqb k' k then Some v else dict_get k d.
Proof.
  induction d as [|[k0 v0] d IH]; simpl; [reflexivity|].
  destruct (str_eqb k0 k') eqn:E0; simpl.
  - apply str_eqb_eq in E0. subst k0.
    destruct (str_eqb k' k); reflexivity.
  - destruct (str_eqb k0 k) eqn:E1; [|exact IH].
    apply str_eqb_eq in E1. subst k0.
    destruct (str_eqb k' k) eqn:E2; [|reflexivity].
    apply str_eqb_eq in E2. subst k'. rewrite str_eqb_refl in E0.
    discriminate.
Qed.

Section Values.

Context {R : Runtime}.

(** The three ways through the [try] of lines 64-73. *)
Lemma store_param_cases (arguments : dict (pyval json_value))
      (param : str * str) :
  let key := strip (fst param) in
  let value := strip (snd param) in
  store_param arguments param =
  if startswith (lit "[") value || startswith (lit "{") value
  then match json_loads value with
       | Ok v => Ok (dict_set key (PJson v) arguments)
       | Raise JSONDecodeError => Ok (dict_set key (PStr value) arguments)
       | Raise OtherError => Raise OtherError
       end
  else Ok (dict_set key (PStr value) arguments).
Proof.
  unfold store_param.
  destruct (startswith (lit "[") (strip (snd param)) ||
            startswith (lit "{") (strip (snd param))); [|reflexivity].
  destruct (json_loads (strip (snd param))) as [v|[|]]; reflexivity.
Qed.

Lemma store_param_no_decode_error (arguments : dict (pyval json_value))
      (param : str * str) :
  store_param arguments param <> Raise JSONDecodeError.
Proof.
  rewrite store_param_cases.
  destruct (startswith (lit "[") (strip (snd param)) ||
            startswith (lit "{") (strip (snd param))); [|discriminate].
  destruct (json_loads (strip (snd param))) as [v|[|]]; discriminate.
Qed.

Lemma store_params_no_decode_error (param_matches : list (str * str)) :
  forall arguments,
    store_params param_matches arguments <> Raise JSONDecodeError.
Proof.
  induction param_matches as [|param rest IH]; intros arguments; simpl.
  - discriminate.
  - pose proof (store_param_no_decode_error arguments param) as H.
    destruct (store_param arguments param) as [d|[|]]; simpl.
    + apply IH.
    + contradiction.
    + discriminate.
Qed.

Lemma parse_blocks_no_decode_error (function_matches : list (str * str)) :
  forall i tool_calls,
    parse_blocks function_matches i tool_calls <> Raise JSONDecodeError.
Proof.
  induction function_matches as [|[fn pb] rest IH]; intros i tool_calls.
  - discriminate.
  - rewrite parse_blocks_cons.
    pose proof (store_params_no_decode_error
                  (findall2 param_pattern pb) []) as H.
    destruct (store_params (findall2 param_pattern pb) []) as [d|[|]];
      cbn [bind].
    + apply IH.
    + contradiction.
    + discriminate.
Qed.

(** When [json.loads] raises nothing but [JSONDecodeError], the parser
    returns. *)
Lemma store_params_total (param_matches : list (str * str)) :
  (forall s, json_loads s <> Raise OtherError) ->
  forall arguments, exists d, store_params param_matches arguments = Ok d.
Proof.
  intros Hsafe.
  induction param_matches as [|param rest IH]; intros arguments; simpl.
  - now exists arguments.
  - rewrite store_param_cases. cbv zeta.
    destruct (startswith (lit "[") (strip (snd param)) ||
              startswith (lit "{") (strip (snd param))); [|apply IH].
    pose proof (Hsafe (strip (snd param))) as Hs.
    destruct (json_loads (strip (snd param))) as [v|[|]];
      [apply IH | apply IH | contradiction].
Qed.

Lemma parse_blocks_total (function_matches : list (str * str)) :
  (forall s, json_loads s <> Raise OtherError) ->
  forall i tool_calls,
  exists result, parse_blocks function_matches i tool_calls = Ok result.
Proof.
  intros Hsafe.
  induction function_matches as [|[fn pb] rest IH]; intros i tool_calls.
  - now exists tool_calls.
  - rewrite parse_blocks_cons.
    destruct (store_params_total (findall2 param_pattern pb) Hsafe [])
      as [d ->].
    apply IH.
Qed.

End Values.

(** ** Matching a well-formed block *)

Lemma unbordered_elim (c : str) (j : nat) :
  unbordered c = true -> 0 < j < length c ->
  startswith (skipn j c) c = false.
Proof.
  unfold unbordered. rewrite forallb_forall. intros H Hj.
  apply negb_true_iff. apply H. apply in_seq. lia.
Qed.

(** In [x ++ c ++ rest], where [c] does not occur in [x], the first
    occurrence of [c] is the one written. *)
Lemma no_early_occurrence (c x rest : str) :
  unbordered c = true -> contains c x = false ->
  forall x1 x2, x = x1 ++ x2 -> x2 <> [] ->
                startswith c (x2 ++ c ++ rest) = false.
Proof.
  intros Hu Hc x1 x2 -> Hne.
  destruct (startswith c (x2 ++ c ++ rest)) eqn:E; [|reflexivity].
  exfalso. apply startswith_spec in E as [w Hw].
  apply app_eq_app in Hw as [l [[H1 H2] | [H1 H2]]].
  - subst x2. now rewrite contains_app_intro in Hc.
  - destruct l as [|h l].
    + rewrite app_nil_r in H1. subst x2.
      pose proof (contains_app_intro x1 c []) as Hin.
      rewrite app_nil_r in Hin. congruence.
    + assert (Hpre : startswith (h :: l) c = true).
      { apply startswith_spec.
        apply app_eq_app in H2 as [l' [[H3 H4] | [H3 H4]]].
        - exists l'. exact H3.
        - exfalso. apply (f_equal (@length _)) in H1, H3.
          rewrite !length_app in *. simpl in *.
          destruct x2; [congruence | simpl in *; lia]. }
      assert (Hskip : skipn (length x2) c = h :: l).
      { rewrite H1 at 1. rewrite skipn_app, skipn_all, Nat.sub_diag.
        reflexivity. }
      rewrite <- Hskip in Hpre.
      rewrite unbordered_elim in Hpre; [discriminate | exact Hu |].
      rewrite H1, length_app. simpl.
      destruct x2; [congruence | simpl; lia].
Qed.

(** A lazy wildcard followed by the literal [c] stops at the first [c]. *)
Lemma lazy_until (c : str) (p : pattern) (cap : bool) (x rest acc : str)
      (gs : list str) (r : str) :
  unbordered c = true -> contains c x = false ->
  match_here p rest = Some (gs, r) ->
  lazy_loop (match_here (Lit c :: p)) cap acc (x ++ c ++ rest) =
  Some (if cap then (rev acc ++ x) :: gs else gs, r).
Proof.
  intros Hu Hc Hp. apply lazy_loop_complete.
  - now rewrite match_here_lit.
  - intros x1 x2 Hx Hne. apply match_here_lit_head.
    now apply (no_early_occurrence c x rest Hu Hc x1 x2).
Qed.

(** The two-group patterns on a block as it is written. *)
Lemma match_block (a g c n b rest : str) :
  unbordered g = true -> unbordered c = true ->
  contains g n = false -> contains c b = false ->
  match_here [Lit a; Lazy true; Lit g; Lazy true; Lit c]
             (a ++ n ++ g ++ b ++ c ++ rest) = Some ([n; b], rest).
Proof.
  intros Hg Hc Hn Hb. rewrite match_here_lit.
  change (match_here [Lazy true; Lit g; Lazy true; Lit c]
                     (n ++ g ++ b ++ c ++ rest))
    with (lazy_loop (match_here (Lit g :: [Lazy true; Lit c])) true []
                    (n ++ g ++ b ++ c ++ rest)).
  rewrite (lazy_until g [Lazy true; Lit c] true n (b ++ c ++ rest) []
                      [b] rest Hg Hn); [reflexivity|].
  change (match_here [Lazy true; Lit c] (b ++ c ++ rest))
    with (lazy_loop (match_here (Lit c :: [])) true [] (b ++ c ++ rest)).
  now rewrite (lazy_until c [] true b rest [] [] rest Hc Hb).
Qed.

Lemma findall_skip (p : pattern) (m rest : str) :
  findall_from p (m ++ rest) (length m) = findall_from p rest 0.
Proof. induction m as [|h m IH]; [reflexivity | exact IH]. Qed.

(** After a match the scan resumes where the match ended. *)
Lemma findall_match (p : pattern) (m rest : str) (gs : list str) :
  m <> [] -> match_here p (m ++ rest) = Some (gs, rest) ->
  findall_from p (m ++ rest) 0 = gs :: findall_from p rest 0.
Proof.
  intros Hne H. destruct m as [|h m]; [congruence|].
  change (findall_from p ((h :: m) ++ rest) 0)
    with (match match_here p ((h :: m) ++ rest) with
          | Some (gs, r) =>
              gs :: findall_from p (m ++ rest)
                      (length ((h :: m) ++ rest) - length r - 1)
          | None => findall_from p (m ++ rest) 0
          end).
  rewrite H. f_equal.
  replace (length ((h :: m) ++ rest) - length rest - 1) with (length m)
    by (rewrite length_app; cbn [length]; lia).
  apply findall_skip.
Qed.

(** Text without the first character of the pattern is passed over. *)
Lemma findall_sep (h : char) (a : str) (p : pattern) (sep rest : str) :
  existsb (N.eqb h) sep = false ->
  findall_from (Lit (h :: a) :: p) (sep ++ rest) 0 =
  findall_from (Lit (h :: a) :: p) rest 0.
Proof.
  induction sep as [|c sep IH]; intros H; [reflexivity|].
  simpl in H. apply orb_false_iff in H as [H1 H2].
  change (findall_from (Lit (h :: a) :: p) ((c :: sep) ++ rest) 0)
    with (match match_here (Lit (h :: a) :: p) (c :: sep ++ rest) with
          | Some (gs, r) =>
              gs :: findall_from (Lit (h :: a) :: p) (sep ++ rest)
                      (length (c :: sep ++ rest) - length r - 1)
          | None => findall_from (Lit (h :: a) :: p) (sep ++ rest) 0
          end).
  rewrite match_here_lit_head; [now apply IH|].
  simpl. now rewrite H1.
Qed.

Lemma in_first_seen (k : str) (keys : list str) :
  In k (first_seen keys) <-> In k keys.
Proof.
  induction keys as [|a keys IH]; simpl; [tauto|].
  rewrite filter_In, IH. split.
  - intros [H | [H _]]; auto.
  - intros [H | H]; [now left|].
    destruct (str_eqb a k) eqn:E.
    + left. now apply str_eqb_eq.
    + right. split; [exact H | reflexivity].
Qed.

Lemma str_eqb_neq (a b : str) : a <> b -> str_eqb a b = false.
Proof.
  intros H. destruct (str_eqb a b) eqn:E; [|reflexivity].
  apply str_eqb_eq in E. contradiction.
Qed.

Lemma first_seen_snoc (k : str) (keys : list str) :
  first_seen (keys ++ [k]) =
  if in_dec str_eq_dec k keys then first_seen keys
  else first_seen keys ++ [k].
Proof.
  induction keys as [|a keys IH]; [reflexivity|].
  cbn [app first_seen]. rewrite IH.
  destruct (in_dec str_eq_dec k keys) as [Hin | Hnin];
    destruct (in_dec str_eq_dec k (a :: keys)) as [Hin' | Hnin'].
  - reflexivity.
  - exfalso. apply Hnin'. now right.
  - destruct Hin' as [-> | Hin']; [|contradiction].
    rewrite filter_app. simpl. rewrite str_eqb_refl. simpl.
    now rewrite app_nil_r.
  - rewrite filter_app. simpl.
    rewrite str_eqb_neq by (intros ->; apply Hnin'; now left).
    reflexivity.
Qed.

Lemma NoDup_first_seen (keys : list str) : NoDup (first_seen keys).
Proof.
  induction keys as [|a keys IH]; simpl; constructor.
  - rewrite filter_In. intros [_ H]. now rewrite str_eqb_refl in H.
  - now apply NoDup_filter.
Qed.

Lemma first_seen_NoDup (keys : list str) :
  NoDup keys -> first_seen keys = keys.
Proof.
  induction 1 as [|a keys Hnin Hnd IH]; simpl; [reflexivity|].
  rewrite IH. f_equal. clear IH Hnd.
  induction keys as [|b keys IHk]; simpl; [reflexivity|].
  rewrite str_eqb_neq by (intros ->; apply Hnin; now left).
  simpl. f_equal. apply IHk. intros H. apply Hnin. now right.
Qed.

(** *** The dictionary built by the loop *)

Lemma dict_set_keys {V} (k : str) (v : V) (d : dict V) :
  map fst (dict_set k v d) =
  if in_dec str_eq_dec k (map fst d) then map fst d else map fst d ++ [k].
Proof.
  induction d as [|[k0 v0] d IH].
  - reflexivity.
  - cbn [dict_set]. destruct (str_eqb k0 k) eqn:E.
    + apply str_eqb_eq in E. subst k0.
      destruct (in_dec str_eq_dec k (map fst ((k, v0) :: d))) as [_ | Hn].
      * reflexivity.
      * exfalso. apply Hn. now left.
    + cbn [map fst]. rewrite IH.
      assert (Hne : k0 <> k)
        by (intros ->; now rewrite str_eqb_refl in E).
      destruct (in_dec str_eq_dec k (map fst d)) as [Hin | Hnin];
        destruct (in_dec str_eq_dec k (k0 :: map fst d)) as [Hin' | Hnin'].
      * reflexivity.
      * exfalso. apply Hnin'. now right.
      * destruct Hin' as [Heq | Hin']; contradiction.
      * reflexivity.
Qed.

Lemma dict_of_snoc {V} (es : list (str * V)) (e : str * V) (d : dict V) :
  dict_of (es ++ [e]) d = dict_set (fst e) (snd e) (dict_of es d).
Proof. unfold dict_of. now rewrite fold_left_app. Qed.

(** Keys stand in first-seen order. *)
Lemma dict_of_keys {V} (es : list (str * V)) :
  map fst (dict_of es []) = first_seen (map fst es).
Proof.
  induction es as [|e es IH] using rev_ind; [reflexivity|].
  rewrite dict_of_snoc, dict_set_keys, IH, map_app. cbn [map].
  rewrite first_seen_snoc.
  destruct (in_dec str_eq_dec (fst e) (first_seen (map fst es))) as [H | H];
    destruct (in_dec str_eq_dec (fst e) (map fst es)) as [H' | H'];
    try reflexivity.
  - apply (proj1 (in_first_seen _ _)) in H. contradiction.
  - apply (proj2 (in_first_seen _ _)) in H'. contradiction.
Qed.

(** A repeated key keeps the value written last. *)
Lemma dict_of_get {V} (k : str) (es : list (str * V)) :
  dict_get k (dict_of es []) = last_value k es.
Proof.
  unfold last_value.
  induction es as [|e es IH] using rev_ind; [reflexivity|].
  rewrite dict_of_snoc, dict_get_set, rev_app_distr. cbn [rev app find].
  destruct (str_eqb (fst e) k); [reflexivity | exact IH].
Qed.

Section Building.

Context {R : Runtime}.

Lemma store_params_entries (ps : list written) :
  forallb (fun w => decodes (strip (w_value w))) ps = true ->
  forall d,
    store_params (map (fun w => (w_name w, w_value w)) ps) d =
    Ok (dict_of (entries ps) d).
Proof.
  induction ps as [|w ps IH]; intros H d; [reflexivity|].
  cbn [forallb] in H. apply andb_true_iff in H as [Hw Hps].
  cbn [map store_params]. rewrite store_param_cases. cbv zeta.
  cbn [fst snd]. unfold decodes in Hw.
  assert (E : store_params (map (fun w => (w_name w, w_value w)) ps)
                (dict_set (strip (w_name w)) (decoded (strip (w_value w))) d)
              = Ok (dict_of (entries (w :: ps)) d))
    by (rewrite IH by exact Hps; reflexivity).
  unfold decoded in E. fold (looks_json (strip (w_value w))).
  destruct (looks_json (strip (w_value w))); [|exact E].
  destruct (json_loads (strip (w_value w))) as [v|[|]];
    [exact E | exact E | discriminate].
Qed.

End Building.

(** *** What [re.findall] returns on a block *)

Lemma findall_params (ps : list written) :
  forallb (fun w => negb (contains (lit ">") (w_name w)) &&
                    negb (contains (lit "</parameter>") (w_value w)) &&
                    negb (existsb (N.eqb 60) (w_after w))) ps = true ->
  findall2 param_pattern (params_text ps) =
  map (fun w => (w_name w, w_value w)) ps.
Proof.
  unfold findall2, findall.
  induction ps as [|w ps IH]; intros H; [reflexivity|].
  cbn [forallb] in H. apply andb_true_iff in H as [Hw Hps].
  apply andb_true_iff in Hw as [Hw Hafter].
  apply andb_true_iff in Hw as [Hname Hvalue].
  apply negb_true_iff in Hname, Hvalue, Hafter.
  cbn [params_text]. unfold param_block.
  assert (Hm : match_here param_pattern
                 (lit "<parameter=" ++ w_name w ++ lit ">" ++ w_value w ++
                  lit "</parameter>" ++ w_after w ++ params_text ps)
               = Some ([w_name w; w_value w], w_after w ++ params_text ps))
    by (apply match_block; auto).
  replace ((lit "<parameter=" ++ w_name w ++ lit ">" ++ w_value w ++
            lit "</parameter>") ++ w_after w ++ params_text ps)
    with ((lit "<parameter=" ++ w_name w ++ lit ">" ++ w_value w ++
           lit "</parameter>") ++ (w_after w ++ params_text ps)) by reflexivity.
  rewrite (findall_match _ _ _ [w_name w; w_value w]); [| discriminate |].
  - cbn [map as_pair]. f_equal.
    change param_pattern
      with (Lit (60%N :: lit "parameter=") ::
            [Lazy true; Lit (lit ">"); Lazy true; Lit (lit "</parameter>")]).
    rewrite findall_sep by exact Hafter.
    now apply IH.
  - rewrite <- !app_assoc. exact Hm.
Qed.

Lemma findall_function_block (name body : str) :
  contains (lit ">") name = false ->
  contains (lit "</function>") body = false ->
  findall2 function_pattern (function_block name body) = [(name, body)].
Proof.
  intros Hname Hbody. unfold findall2, findall, function_block.
  assert (Hm : match_here function_pattern
                 (lit "<function=" ++ name ++ lit ">" ++ body ++
                  lit "</function>" ++ [])
               = Some ([name; body], []))
    by (apply match_block; auto).
  replace (lit "<function=" ++ name ++ lit ">" ++ body ++ lit "</function>")
    with ((lit "<function=" ++ name ++ lit ">" ++ body ++ lit "</function>")
            ++ []) by apply app_nil_r.
  rewrite (findall_match _ _ _ [name; body]); [reflexivity | discriminate |].
  rewrite <- !app_assoc. exact Hm.
Qed.

(** ** Identifiers *)

Lemma findall_many_blocks (n : nat) :
  findall2 function_pattern (many_blocks n) = repeat (lit "f", []) n.
Proof.
  unfold findall2, findall, many_blocks.
  induction n as [|n IH]; [reflexivity|].
  cbn [repeat concat].
  assert (Hm : match_here function_pattern
                 (lit "<function=" ++ lit "f" ++ lit ">" ++ [] ++
                  lit "</function>" ++
                  concat (repeat (function_block (lit "f") []) n))
               = Some ([lit "f"; []],
                       concat (repeat (function_block (lit "f") []) n)))
    by (apply match_block; reflexivity).
  rewrite (findall_match _ _ _ [lit "f"; []]); [| discriminate |].
  - cbn [map as_pair]. f_equal. exact IH.
  - unfold function_block. rewrite <- !app_assoc. exact Hm.
Qed.

Section Identifiers.

Context {R : Runtime}.

(** One call per block, and every new id is the decimal writing of a
    residue modulo [1000000000]. *)
Lemma parse_blocks_ids (function_matches : list (str * str)) :
  forall i tool_calls result,
    parse_blocks function_matches i tool_calls = Ok result ->
    length result = length tool_calls + length function_matches /\
    forall tc, In tc result ->
      In tc tool_calls \/
      exists h, id tc = str_of_Z (h mod 1000000000).
Proof.
  induction function_matches as [|[fn pb] rest IH];
    intros i tool_calls result H.
  - injection H as <-. split; [cbn [length]; lia | now left].
  - rewrite parse_blocks_cons in H.
    destruct (store_params (findall2 param_pattern pb) []) as [args|e];
      [|discriminate].
    cbn [bind] in H. apply IH in H as [Hlen Hids]. split.
    + rewrite Hlen, length_app. cbn [length]. lia.
    + intros tc Hin. destruct (Hids tc Hin) as [Hold | Hnew]; [|now right].
      apply in_app_or in Hold as [Hold | [<- | []]]; [now left|].
      right. eexists. reflexivity.
Qed.

Lemma parse_blocks_no_params (n : nat) :
  forall i tool_calls,
  exists result,
    parse_blocks (repeat (lit "f", []) n) i tool_calls = Ok result.
Proof.
  induction n as [|n IH]; intros i tool_calls.
  - now exists tool_calls.
  - cbn [repeat]. rewrite parse_blocks_cons.
    change (store_params (findall2 param_pattern []) [])
      with (@Ok (dict (pyval json_value)) []).
    cbn [bind]. apply IH.
Qed.

End Identifiers.

(** More strings than residues: two of them are equal. *)
Lemma residues_pigeonhole (M : Z) (ids : list str) :
  (0 < M)%Z ->
  (forall s, In s ids -> exists h, s = str_of_Z (h mod M)) ->
  Z.to_nat M < length ids ->
  ~ NoDup ids.
Proof.
  intros HM Hr Hlen Hnd.
  pose (L := map (fun n => str_of_Z (Z.of_nat n)) (seq 0 (Z.to_nat M))).
  assert (Hincl : incl ids L).
  { intros s Hs. destruct (Hr s Hs) as [h ->].
    apply in_map_iff. exists (Z.to_nat (h mod M)).
    pose proof (Z.mod_pos_bound h M HM) as Hb. split.
    - f_equal. apply Z2Nat.id. lia.
    - apply in_seq. split; [lia|]. rewrite Nat.add_0_l.
      apply Z2Nat.inj_lt; lia. }
  pose proof (NoDup_incl_length Hnd Hincl) as Hle.
  unfold L in Hle. rewrite length_map, length_seq in Hle. lia.
Qed.

(** ** Truncation *)

Lemma strict_prefix_spec (P T : str) :
  strict_prefix P T = true -> exists z, z <> [] /\ T = P ++ z.
Proof.
  unfold strict_prefix. rewrite andb_true_iff, startswith_spec, Nat.ltb_lt.
  intros [[z ->] Hlen]. exists z. split; [|reflexivity].
  intros ->. rewrite app_nil_r in Hlen. lia.
Qed.

(** The shape of a match of [a.*?b]: the [b] that ends it is the first
    one after [a]. *)
Lemma match_span_shape (a b : str) (c : bool) (s : str)
      (gs : list str) (r : str) :
  match_here [Lit a; Lazy c; Lit b] s = Some (gs, r) ->
  exists x, s = a ++ x ++ b ++ r /\
            forall x1 x2, x = x1 ++ x2 -> x2 <> [] ->
                          startswith b (x2 ++ b ++ r) = false.
Proof.
  cbn [match_here]. destruct (strip_prefix a s) as [s1|] eqn:Ea; [|discriminate].
  apply strip_prefix_spec in Ea. subst s. intros H.
  apply lazy_loop_sound in H as (x & y & gs' & -> & Hk & _ & Hmin).
  destruct (strip_prefix b y) as [y'|] eqn:Eb; [|discriminate].
  apply strip_prefix_spec in Eb. subst y. injection Hk as _ ->.
  exists x. split; [reflexivity|].
  intros x1 x2 Hx Hne. specialize (Hmin x1 x2 Hx Hne).
  apply strip_prefix_startswith.
  destruct (strip_prefix b (x2 ++ b ++ r)); [discriminate | reflexivity].
Qed.

Lemma search_shape (a b : str) (c : bool) (s : str) :
  search [Lit a; Lazy c; Lit b] s = true ->
  exists u y w, s = u ++ a ++ y ++ b ++ w.
Proof.
  induction s as [|h s IH].
  - unfold search.
    destruct (match_here [Lit a; Lazy c; Lit b] []) as [[gs r]|] eqn:E;
      [|discriminate].
    intros _. apply match_span_shape in E as [x [Hx _]].
    exists [], x, r. exact Hx.
  - change (search [Lit a; Lazy c; Lit b] (h :: s))
      with (match match_here [Lit a; Lazy c; Lit b] (h :: s) with
            | Some _ => true
            | None => search [Lit a; Lazy c; Lit b] s
            end).
    destruct (match_here [Lit a; Lazy c; Lit b] (h :: s)) as [[gs r]|] eqn:E.
    + intros _. apply match_span_shape in E as [x [Hx _]].
      exists [], x, r. exact Hx.
    + intros H. destruct (IH H) as (u & y & w & ->).
      exists (h :: u), y, w. reflexivity.
Qed.

(** In a span, the closing text occurs after the opening text only at
    the very end. *)
Lemma span_close_last (a b x u w : str) :
  (forall x1 x2, x = x1 ++ x2 -> x2 <> [] -> startswith b (x2 ++ b) = false) ->
  a ++ x ++ b = u ++ b ++ w -> length a <= length u -> w = [].
Proof.
  intros Hmin H Hlen.
  assert (Hx : exists u', x ++ b = u' ++ b ++ w).
  { apply app_eq_app in H as [l [[H1 H2] | [H1 H2]]].
    - assert (l = []) as ->.
      { apply (f_equal (@length _)) in H1. rewrite length_app in H1.
        destruct l; [reflexivity | cbn [length] in H1; lia]. }
      exists []. symmetry. exact H2.
    - exists l. exact H2. }
  destruct Hx as [u' Hx].
  apply app_eq_app in Hx as [l [[H1 H2] | [H1 H2]]].
  - destruct l as [|h l].
    + cbn [app] in H2. apply (f_equal (@length _)) in H2.
      rewrite length_app in H2.
      destruct w; [reflexivity | cbn [length] in H2; lia].
    + exfalso. pose proof (startswith_app b w) as Hs. rewrite H2 in Hs.
      rewrite (Hmin u' (h :: l) H1) in Hs by discriminate.
      discriminate.
  - apply (f_equal (@length _)) in H2. rewrite !length_app in H2.
    destruct w; [reflexivity | cbn [length] in H2; lia].
Qed.

Lemma no_clash_elim (a b y u w : str) :
  no_clash a b = true -> a ++ y = u ++ b ++ w -> length a <= length u.
Proof.
  intros Hc H. destruct (le_lt_dec (length a) (length u)) as [|Hlt]; [assumption|].
  exfalso. apply app_eq_app in H as [l [[H1 H2] | [H1 H2]]].
  - assert (Hk : In (length u) (seq 0 (length a))) by (apply in_seq; lia).
    unfold no_clash in Hc. rewrite forallb_forall in Hc.
    apply Hc in Hk. apply negb_true_iff in Hk.
    assert (Hl : skipn (length u) a = l).
    { rewrite H1, skipn_app, skipn_all, Nat.sub_diag. reflexivity. }
    rewrite Hl in Hk. apply orb_false_iff in Hk as [Hk1 Hk2].
    apply app_eq_app in H2 as [l' [[H3 H4] | [H3 H4]]].
    + rewrite H3, startswith_app in Hk1. discriminate.
    + rewrite H3, startswith_app in Hk2. discriminate.
  - apply (f_equal (@length _)) in H1. rewrite length_app in H1. lia.
Qed.

Lemma single_span_shape (a b : str) (c : bool) (T : str) :
  is_single_span [Lit a; Lazy c; Lit b] T = true ->
  exists x, T = a ++ x ++ b /\
            forall x1 x2, x = x1 ++ x2 -> x2 <> [] ->
                          startswith b (x2 ++ b) = false.
Proof.
  unfold is_single_span.
  destruct (match_here [Lit a; Lazy c; Lit b] T) as [[gs [|h r]]|] eqn:E;
    try discriminate.
  intros _. apply match_span_shape in E as [x [Hx Hmin]].
  exists x. rewrite app_nil_r in Hx. split; [exact Hx|].
  intros x1 x2 H1 H2. specialize (Hmin x1 x2 H1 H2).
  now rewrite app_nil_r in Hmin.
Qed.

(** A strict prefix of a span does not contain the text that closes it,
    except where that text would begin inside the opening text. *)
Lemma span_prefix_no_close (a b x P z u w : str) :
  (forall x1 x2, x = x1 ++ x2 -> x2 <> [] -> startswith b (x2 ++ b) = false) ->
  a ++ x ++ b = P ++ z -> z <> [] ->
  P = u ++ b ++ w -> length a <= length u -> False.
Proof.
  intros Hmin HT Hz HP Hlen. subst P.
  assert (Hw : w ++ z = []).
  { apply (span_close_last a b x u (w ++ z) Hmin); [|exact Hlen].
    rewrite HT. now rewrite <- !app_assoc. }
  apply app_eq_nil in Hw as [_ ->]. now apply Hz.
Qed.

(** ** Text that is only taken away *)

Lemma dropwhile_split (f : char -> bool) (s : str) :
  exists a, s = a ++ dropwhile f s /\ forallb f a = true.
Proof.
  induction s as [|c s [a [Ha Hf]]]; simpl.
  - now exists [].
  - destruct (f c) eqn:E.
    + exists (c :: a). simpl. rewrite E, Hf. split; [now f_equal | reflexivity].
    + now exists [].
Qed.

Lemma forallb_rev (f : char -> bool) (s : str) :
  forallb f s = true -> forallb f (rev s) = true.
Proof.
  rewrite !forallb_forall. intros H x Hx. apply H. now apply in_rev.
Qed.

(** [strip] takes blanks away at both ends and nothing else. *)
Lemma strip_shape (s : str) :
  exists a b, s = a ++ strip s ++ b /\
              forallb is_space a = true /\ forallb is_space b = true.
Proof.
  unfold strip, rstrip, lstrip.
  destruct (dropwhile_split is_space s) as [a [Ha Hfa]].
  destruct (dropwhile_split is_space (rev (dropwhile is_space s)))
    as [b [Hb Hfb]].
  exists a, (rev b). split; [|split; [exact Hfa | now apply forallb_rev]].
  rewrite <- rev_app_distr, <- Hb, rev_involutive. exact Ha.
Qed.

Lemma rev_snoc_head (t : str) (c : char) :
  exists q, rev t ++ [c] = last t c :: q.
Proof.
  induction t as [|x t _] using rev_ind.
  - now exists [].
  - rewrite rev_app_distr, last_last. simpl. eexists. reflexivity.
Qed.

Lemma strip_ends (s : str) (c : char) (t : str) :
  strip s = c :: t -> is_space c = false /\ is_space (last t c) = false.
Proof.
  intros H. split.
  - unfold strip, lstrip in H.
    destruct (dropwhile is_space s) as [|c' t'] eqn:E; [discriminate|].
    pose proof (dropwhile_head _ _ _ _ E) as Hc.
    rewrite rstrip_cons in H by exact Hc. now injection H as <- _.
  - unfold strip, rstrip in H.
    apply (f_equal (@rev _)) in H. rewrite rev_involutive in H.
    cbn [rev] in H. destruct (rev_snoc_head t c) as [q Hq].
    rewrite Hq in H. exact (dropwhile_head _ _ _ _ H).
Qed.

Lemma subseq_nil_l (t : str) : subseq [] t.
Proof. induction t; constructor; assumption. Qed.

Lemma subseq_refl (s : str) : subseq s s.
Proof. induction s; constructor; assumption. Qed.

Lemma subseq_trans (s t u : str) : subseq s t -> subseq t u -> subseq s u.
Proof.
  intros Hst Htu. revert s Hst.
  induction Htu as [|c t u Htu IH|c t u Htu IH]; intros s Hst.
  - exact Hst.
  - apply subseq_skip. now apply IH.
  - inversion Hst as [|c' s' t' Hs'|c' s' t' Hs']; subst.
    + apply subseq_skip. now apply IH.
    + apply subseq_keep. now apply IH.
Qed.

Lemma subseq_middle (a s b : str) : subseq s (a ++ s ++ b).
Proof.
  induction a as [|c a IH]; [|apply subseq_skip; exact IH].
  cbn [app]. induction s as [|c s IH]; [apply subseq_nil_l|].
  apply subseq_keep. exact IH.
Qed.

Lemma subseq_length (s t : str) : subseq s t -> length s <= length t.
Proof. induction 1; cbn [length]; lia. Qed.

Lemma sub_from_subseq (p : pattern) (s : str) :
  forall skip, subseq (sub_from p s skip) s.
Proof.
  induction s as [|c s IH]; intros skip; [constructor|].
  destruct skip as [|k]; [|apply subseq_skip; apply IH].
  change (sub_from p (c :: s) 0)
    with (match match_here p (c :: s) with
          | Some (_, r) =>
              match length (c :: s) - length r with
              | O => c :: sub_from p s 0
              | S n => sub_from p s n
              end
          | None => c :: sub_from p s 0
          end).
  destruct (match_here p (c :: s)) as [[gs r]|].
  - destruct (length (c :: s) - length r);
      [apply subseq_keep | apply subseq_skip]; apply IH.
  - apply subseq_keep. apply IH.
Qed.

Lemma remove_from_subseq (old s : str) :
  forall skip, subseq (remove_from old s skip) s.
Proof.
  induction s as [|c s IH]; intros skip; [constructor|].
  destruct skip as [|k]; [|apply subseq_skip; apply IH].
  change (remove_from old (c :: s) 0)
    with (if startswith old (c :: s)
          then remove_from old s (length old - 1)
          else c :: remove_from old s 0).
  destruct (startswith old (c :: s));
    [apply subseq_skip | apply subseq_keep]; apply IH.
Qed.

Lemma remove_all_subseq (old s : str) : subseq (remove_all old s) s.
Proof.
  destruct old; [apply subseq_refl | apply remove_from_subseq].
Qed.

Lemma strip_lone_tags_subseq (s : str) : subseq (strip_lone_tags s) s.
Proof.
  unfold strip_lone_tags.
  destruct (contains (lit "<tool_call>") s &&
            negb (contains (lit "</tool_call>") s)).
  - match goal with
    | |- subseq (if ?b then _ else _) _ => destruct b
    end.
    + eapply subseq_trans; apply remove_all_subseq.
    + apply remove_all_subseq.
  - match goal with
    | |- subseq (if ?b then _ else _) _ => destruct b
    end.
    + apply remove_all_subseq.
    + apply subseq_refl.
Qed.

Lemma strip_subseq (s : str) : subseq (strip s) s.
Proof.
  destruct (strip_shape s) as [a [b [Hs _]]].
  pose proof (subseq_middle a (strip s) b) as H.
  now rewrite <- Hs in H.
Qed.

(** ** Exceptions that escape *)

Section Escapes.

Context {R : Runtime}.

Lemma decodes_raises_other (value : str) :
  decodes value = negb (raises_other value).
Proof.
  unfold decodes, raises_other.
  destruct (looks_json value); [|reflexivity].
  destruct (json_loads value) as [v|[|]]; reflexivity.
Qed.

(** The [except] clause lets every other exception through. *)
Lemma store_param_raises (arguments : dict (pyval json_value))
      (param : str * str) :
  store_param arguments param = Raise OtherError <->
  raises_other (strip (snd param)) = true.
Proof.
  rewrite store_param_cases. cbv zeta. unfold raises_other, looks_json.
  destruct (startswith (lit "[") (strip (snd param)) ||
            startswith (lit "{") (strip (snd param))).
  - destruct (json_loads (strip (snd param))) as [v|[|]]; simpl;
      split; congruence.
  - simpl. split; discriminate.
Qed.

Lemma store_params_raises (param_matches : list (str * str)) :
  forall arguments,
    store_params param_matches arguments = Raise OtherError <->
    existsb (fun p => raises_other (strip (snd p))) param_matches = true.
Proof.
  induction param_matches as [|param rest IH]; intros arguments.
  - simpl. split; discriminate.
  - cbn [store_params existsb].
    pose proof (store_param_raises arguments param) as Hp.
    pose proof (store_param_no_decode_error arguments param) as Hj.
    destruct (store_param arguments param) as [d|[|]]; cbn [bind].
    + destruct (raises_other (strip (snd param))).
      * destruct Hp as [_ Hp]. specialize (Hp eq_refl). discriminate.
      * simpl. apply IH.
    + contradiction.
    + destruct Hp as [Hp _]. rewrite (Hp eq_refl). simpl. tauto.
Qed.

Lemma parse_blocks_raises (function_matches : list (str * str)) :
  forall i tool_calls,
    parse_blocks function_matches i tool_calls = Raise OtherError <->
    existsb (fun m => existsb (fun p => raises_other (strip (snd p)))
                              (findall2 param_pattern (snd m)))
            function_matches = true.
Proof.
  induction function_matches as [|[fn pb] rest IH]; intros i tool_calls.
  - simpl. split; discriminate.
  - rewrite parse_blocks_cons. cbn [existsb snd].
    pose proof (store_params_raises (findall2 param_pattern pb) []) as Hp.
    pose proof (store_params_no_decode_error (findall2 param_pattern pb) [])
      as Hj.
    destruct (store_params (findall2 param_pattern pb) []) as [d|[|]];
      cbn [bind].
    + destruct (existsb (fun p => raises_other (strip (snd p)))
                        (findall2 param_pattern pb)).
      * destruct Hp as [_ Hp]. specialize (Hp eq_refl). discriminate.
      * simpl. apply IH.
    + contradiction.
    + destruct Hp as [Hp _]. rewrite (Hp eq_refl). simpl. tauto.
Qed.

Lemma undecodable_param (ps : list written) :
  forallb (fun w => decodes (strip (w_value w))) ps = false ->
  existsb (fun p => raises_other (strip (snd p)))
          (map (fun w => (w_name w, w_value w)) ps) = true.
Proof.
  induction ps as [|w ps IH]; [discriminate|].
  cbn [forallb map existsb snd]. rewrite decodes_raises_other.
  destruct (raises_other (strip (w_value w))); [reflexivity|].
  simpl. exact IH.
Qed.

End Escapes.

(** ** Cleaning twice *)

(** Where nothing matches, [re.sub] changes nothing. *)
Lemma sub_no_match (p : pattern) (s : str) :
  search p s = false -> sub p s = s.
Proof.
  unfold sub. induction s as [|c s IH]; intros H; [reflexivity|].
  change (search p (c :: s))
    with (match match_here p (c :: s) with
          | Some _ => true
          | None => search p s
          end) in H.
  change (sub_from p (c :: s) 0)
    with (match match_here p (c :: s) with
          | Some (_, r) =>
              match length (c :: s) - length r with
              | O => c :: sub_from p s 0
              | S n => sub_from p s n
              end
          | None => c :: sub_from p s 0
          end).
  destruct (match_here p (c :: s)); [discriminate|].
  now rewrite IH.
Qed.

(** Where a span matches, [re.sub] takes at least one character away. *)
Lemma sub_span_shorter (a b : str) (f : bool) (s : str) :
  a <> [] -> search [Lit a; Lazy f; Lit b] s = true ->
  length (sub [Lit a; Lazy f; Lit b] s) < length s.
Proof.
  intros Ha. unfold sub. induction s as [|c s IH]; intros H.
  - exfalso. unfold search in H.
    destruct (match_here [Lit a; Lazy f; Lit b] []) as [[gs r]|] eqn:E;
      [|discriminate].
    apply match_span_shape in E as [x [Hx _]].
    destruct a; [congruence | discriminate].
  - change (search [Lit a; Lazy f; Lit b] (c :: s))
      with (match match_here [Lit a; Lazy f; Lit b] (c :: s) with
            | Some _ => true
            | None => search [Lit a; Lazy f; Lit b] s
            end) in H.
    change (sub_from [Lit a; Lazy f; Lit b] (c :: s) 0)
      with (match match_here [Lit a; Lazy f; Lit b] (c :: s) with
            | Some (_, r) =>
                match length (c :: s) - length r with
                | O => c :: sub_from [Lit a; Lazy f; Lit b] s 0
                | S n => sub_from [Lit a; Lazy f; Lit b] s n
                end
            | None => c :: sub_from [Lit a; Lazy f; Lit b] s 0
            end).
    destruct (match_here [Lit a; Lazy f; Lit b] (c :: s)) as [[gs r]|] eqn:E.
    + apply match_span_shape in E as [x [Hx _]].
      assert (Hlen : length r < length (c :: s)).
      { rewrite Hx, !length_app. destruct a; [congruence | cbn [length]; lia]. }
      destruct (length (c :: s) - length r) as [|n] eqn:En; [lia|].
      pose proof (subseq_length _ _
                    (sub_from_subseq [Lit a; Lazy f; Lit b] s n)) as Hle.
      cbn [length]. lia.
    + cbn [length]. specialize (IH H). lia.
Qed.

(** Where [old] occurs, [replace(old, '')] takes at least one character
    away. *)
Lemma remove_all_shorter (old s : str) :
  old <> [] -> contains old s = true ->
  length (remove_all old s) < length s.
Proof.
  destruct old as [|o old]; [congruence|]. intros _. unfold remove_all.
  induction s as [|c s IH]; intros H; [discriminate|].
  change (remove_from (o :: old) (c :: s) 0)
    with (if startswith (o :: old) (c :: s)
          then remove_from (o :: old) s (length (o :: old) - 1)
          else c :: remove_from (o :: old) s 0).
  change (contains (o :: old) (c :: s))
    with (startswith (o :: old) (c :: s) || contains (o :: old) s) in H.
  destruct (startswith (o :: old) (c :: s)).
  - pose proof (subseq_length _ _
                  (remove_from_subseq (o :: old) s (length (o :: old) - 1))).
    cbn [length] in *. lia.
  - cbn [length]. specialize (IH H). lia.
Qed.

Lemma strip_lone_tags_length (s : str) :
  length (strip_lone_tags s) <= length s.
Proof. apply subseq_length, strip_lone_tags_subseq. Qed.

(** A lone tag is taken away. *)
Lemma lone_tag_shorter (s : str) :
  contains (lit "<tool_call>") s <> contains (lit "</tool_call>") s ->
  length (strip_lone_tags s) < length s.
Proof.
  intros H. unfold strip_lone_tags.
  destruct (contains (lit "<tool_call>") s) eqn:Ho;
    destruct (contains (lit "</tool_call>") s) eqn:Hc;
    try congruence; cbn [andb negb].
  - pose proof (remove_all_shorter (lit "<tool_call>") s
                  ltac:(discriminate) Ho) as Hlt.
    destruct (contains (lit "</tool_call>")
                (remove_all (lit "<tool_call>") s) &&
              negb (contains (lit "<tool_call>")
                      (remove_all (lit "<tool_call>") s))).
    + pose proof (subseq_length _ _
                    (remove_all_subseq (lit "</tool_call>")
                       (remove_all (lit "<tool_call>") s))).
      lia.
    + exact Hlt.
  - rewrite Ho, Hc. cbn [andb negb].
    now apply remove_all_shorter.
Qed.

(** Cleaning leaves a text as it is exactly when the text is trimmed and
    holds no span and no lone wrapper tag. *)
Lemma clean_fixed_point (y : str) :
  _clean_content y = y <->
  strip y = y /\
  search wrapped_span y = false /\
  search function_span y = false /\
  contains (lit "<tool_call>") y = contains (lit "</tool_call>") y.
Proof.
  split.
  - intros H. unfold _clean_content, remove_spans in H.
    remember (sub wrapped_span y) as s1 eqn:E1.
    remember (sub function_span s1) as s2 eqn:E2.
    remember (strip_lone_tags s2) as s3 eqn:E3.
    assert (L4 : length s1 <= length y)
      by (rewrite E1; apply subseq_length, sub_from_subseq).
    assert (L3 : length s2 <= length s1)
      by (rewrite E2; apply subseq_length, sub_from_subseq).
    assert (L2 : length s3 <= length s2)
      by (rewrite E3; apply strip_lone_tags_length).
    assert (L1 : length (strip s3) <= length s3)
      by apply subseq_length, strip_subseq.
    assert (L0 : length (strip s3) = length y) by now rewrite H.
    assert (Hw : search wrapped_span y = false).
    { apply not_true_is_false. intros E.
      pose proof (sub_span_shorter (lit "<tool_call>") (lit "</tool_call>")
                    false y ltac:(discriminate) E) as Hlt.
      fold wrapped_span in Hlt. rewrite <- E1 in Hlt. lia. }
    assert (Hs1 : s1 = y) by (rewrite E1; now apply sub_no_match).
    rewrite Hs1 in E2, L3. clear E1 L4 Hs1 s1.
    assert (Hf : search function_span y = false).
    { apply not_true_is_false. intros E.
      pose proof (sub_span_shorter (lit "<function=") (lit "</function>")
                    false y ltac:(discriminate) E) as Hlt.
      fold function_span in Hlt. rewrite <- E2 in Hlt. lia. }
    assert (Hs2 : s2 = y) by (rewrite E2; now apply sub_no_match).
    rewrite Hs2 in E3, L2. clear E2 L3 Hs2 s2.
    assert (Ht : contains (lit "<tool_call>") y =
                 contains (lit "</tool_call>") y).
    { destruct (bool_dec (contains (lit "<tool_call>") y)
                         (contains (lit "</tool_call>") y)) as [E|E];
        [exact E|].
      pose proof (lone_tag_shorter y E) as Hlt. rewrite <- E3 in Hlt. lia. }
    split; [|auto].
    rewrite E3, strip_lone_tags_both in H by exact Ht. exact H.
  - intros (Hs & Hw & Hf & Ht). unfold _clean_content, remove_spans.
    rewrite (sub_no_match _ _ Hw), (sub_no_match _ _ Hf).
    now rewrite strip_lone_tags_both by exact Ht.
Qed.

(** * The claims *)

(** C1.  When [content] contains the opening wrapper tag [<tool_call>],
    [is_complete_tool_call content] is true if and only if the closing tag
    [</tool_call>] is present as well, whatever function or parameter
    blocks stand inside; and on [<tool_call><function=f></function>],
    whose wrapper is never closed, it is false. *)
Theorem is_complete_wrapped_iff (content : str) :
  contains (lit "<tool_call>") content = true ->
  (is_complete_tool_call content = true <->
   contains (lit "</tool_call>") content = true) /\
  is_complete_tool_call (lit "<tool_call><function=f></function>") = false.
Proof.
  intros H. split; [|reflexivity].
  unfold is_complete_tool_call. rewrite H. tauto.
Qed.

Lemma is_complete_wrapped_iff_witness :
  contains (lit "<tool_call>")
           (lit "<tool_call><function=f></function></tool_call>") = true /\
  ((is_complete_tool_call
      (lit "<tool_call><function=f></function></tool_call>") = true <->
    contains (lit "</tool_call>")
             (lit "<tool_call><function=f></function></tool_call>") = true) /\
   is_complete_tool_call (lit "<tool_call><function=f></function>") = false).
Proof.
  split; [reflexivity|].
  apply (is_complete_wrapped_iff
           (lit "<tool_call><function=f></function></tool_call>")).
  reflexivity.
Defined.

(** C2, as the spec states it, fails: the text of two calls is complete,
    and so is its strict prefix that ends after the first call. *)
Lemma truncation_counterexample :
  ~ (forall T P : str,
        is_complete_tool_call T = true -> strict_prefix P T = true ->
        is_complete_tool_call P = false).
Proof.
  intros H.
  specialize (H (lit "<function=a></function><function=b></function>")
                (lit "<function=a></function>") eq_refl eq_refl).
  vm_compute in H. discriminate.
Qed.

(** C2, amended.  When [T] is exactly one complete span, either one
    wrapped span [<tool_call>...</tool_call>] or one function span
    [<function=...</function>] in which no [<tool_call>] occurs, then
    [is_complete_tool_call] is false on every strict prefix of [T]. *)
Theorem single_span_prefix_incomplete (T P : str) :
  is_single_span wrapped_span T ||
  is_single_span function_span T && negb (contains (lit "<tool_call>") T)
  = true ->
  strict_prefix P T = true ->
  is_complete_tool_call P = false.
Proof.
  intros HT HP. apply strict_prefix_spec in HP as [z [Hz HPz]].
  apply not_true_is_false. intros Hcomplete.
  apply orb_true_iff in HT as [HT | HT].
  - (* one wrapped span *)
    apply single_span_shape in HT as [x [Hx Hmin]].
    rewrite Hx in HPz.
    assert (Hclose : contains (lit "</tool_call>") P = false).
    { apply not_true_is_false. intros Hc.
      apply contains_spec in Hc as [u [w HPu]].
      apply (span_prefix_no_close _ _ _ _ _ _ _ Hmin HPz Hz HPu).
      apply (no_clash_elim (lit "<tool_call>") (lit "</tool_call>")
                           (x ++ lit "</tool_call>") u (w ++ z));
        [reflexivity|].
      rewrite HPz, HPu. now rewrite <- !app_assoc. }
    unfold is_complete_tool_call in Hcomplete.
    destruct (contains (lit "<tool_call>") P) eqn:Hopen; [congruence|].
    apply search_shape in Hcomplete as (u & y & w & HPu).
    apply app_eq_app in HPz as [l [[H1 H2] | [H1 H2]]].
    + apply (f_equal (@length _)) in H1.
      rewrite HPu, !length_app in H1.
      change (length (lit "<tool_call>")) with 11 in H1.
      change (length (lit "<function=")) with 10 in H1.
      change (length (lit "</function>")) with 11 in H1. lia.
    + rewrite H1 in Hopen.
      pose proof (contains_app_intro [] (lit "<tool_call>") l) as Hin.
      cbn [app] in Hin. congruence.
  - (* one function span, without wrapper *)
    apply andb_true_iff in HT as [HT Hopen].
    apply negb_true_iff in Hopen.
    apply single_span_shape in HT as [x [Hx Hmin]].
    rewrite Hx in HPz.
    assert (HopenP : contains (lit "<tool_call>") P = false).
    { apply not_true_is_false. intros Hc.
      apply (contains_prefix _ _ z) in Hc. rewrite <- HPz, <- Hx in Hc.
      congruence. }
    unfold is_complete_tool_call in Hcomplete. rewrite HopenP in Hcomplete.
    apply search_shape in Hcomplete as (u & y & w & HPu).
    apply (span_prefix_no_close (lit "<function=") (lit "</function>") x P z
             (u ++ lit "<function=" ++ y) w Hmin HPz Hz).
    + rewrite HPu. now rewrite <- !app_assoc.
    + rewrite !length_app. lia.
Qed.

Lemma single_span_prefix_incomplete_witness :
  is_single_span wrapped_span
    (lit "<tool_call><function=f></function></tool_call>") ||
  is_single_span function_span
    (lit "<tool_call><function=f></function></tool_call>") &&
  negb (contains (lit "<tool_call>")
          (lit "<tool_call><function=f></function></tool_call>")) = true /\
  strict_prefix (lit "<tool_call><function=f></function></tool_")
                (lit "<tool_call><function=f></function></tool_call>") = true /\
  is_complete_tool_call (lit "<tool_call><function=f></function></tool_")
  = false.
Proof.
  split; [reflexivity|]. split; [reflexivity|].
  apply (single_span_prefix_incomplete
           (lit "<tool_call><function=f></function></tool_call>")
           (lit "<tool_call><function=f></function></tool_"));
    reflexivity.
Defined.

(** What the parser returns on one function block with the parameters
    [ps], when [json.loads] answers every value it is asked about with a
    value or a [JSONDecodeError]: exactly one call, named by the trimmed
    name of the block; its arguments are the encoding of a mapping whose
    keys are the distinct trimmed parameter names in the order they are
    first seen, with exactly one entry per distinct name (as many entries
    as parameters when no name is repeated), and in which a name written
    more than once keeps the value of its last occurrence. *)
Lemma single_block_returns {R : Runtime} (name before : str)
        (ps : list written) :
  well_formed name before ps = true ->
  forallb (fun w => decodes (strip (w_value w))) ps = true ->
  (exists args,
      parse_tool_calls (function_block name (before ++ params_text ps)) =
      Ok [{| id := str_of_Z (hash (id_key (strip name) 0 0) mod 1000000000);
             type := lit "function";
             function := {| name := strip name;
                            arguments := json_dumps args |} |}] /\
      map fst args = first_seen (map fst (entries ps)) /\
      NoDup (map fst args) /\
      length args = length (first_seen (map fst (entries ps))) /\
      (NoDup (map fst (entries ps)) -> length args = length ps) /\
      (forall k, dict_get k args = last_value k (entries ps))) /\
  parse_tool_calls
    (lit "<function=get_weather><parameter=city>Paris</parameter></function>")
  = Ok [{| id := str_of_Z (hash (lit "get_weather_0_0") mod 1000000000);
           type := lit "function";
           function :=
             {| name := lit "get_weather";
                arguments := json_dumps [(lit "city", PStr (lit "Paris"))] |} |}].
Proof.
  intros Hwf Hdec. split; [|reflexivity].
  unfold well_formed in Hwf.
  apply andb_true_iff in Hwf as [Hwf Hbody].
  apply andb_true_iff in Hwf as [Hwf Hps].
  apply andb_true_iff in Hwf as [Hname Hbefore].
  apply negb_true_iff in Hname, Hbefore, Hbody.
  exists (dict_of (entries ps) []).
  assert (Hkeys : map fst (dict_of (entries ps) []) =
                  first_seen (map fst (entries ps)))
    by apply dict_of_keys.
  split; [|split; [|split; [|split; [|split]]]].
  - unfold parse_tool_calls.
    rewrite findall_function_block by assumption.
    rewrite parse_blocks_cons.
    assert (Hparams : findall2 param_pattern (before ++ params_text ps) =
                      map (fun w => (w_name w, w_value w)) ps).
    { unfold findall2, findall.
      change param_pattern
        with (Lit (60%N :: lit "parameter=") ::
              [Lazy true; Lit (lit ">"); Lazy true; Lit (lit "</parameter>")]).
      rewrite findall_sep by exact Hbefore.
      now apply findall_params. }
    rewrite Hparams, store_params_entries by exact Hdec.
    reflexivity.
  - exact Hkeys.
  - rewrite Hkeys. apply NoDup_first_seen.
  - rewrite <- Hkeys. now rewrite length_map.
  - intros Hnd. rewrite <- (length_map fst), Hkeys, first_seen_NoDup by exact Hnd.
    unfold entries. now rewrite !length_map.
  - intros k. apply dict_of_get.
Qed.

(** C3: on a content that is one function block with the parameters [ps]
    (no [>] in a name, no [</parameter>] in a value, no [<] between the
    parameters, no [</function>] in the body), a parse that returns has
    made the one call of the claim, with one entry per distinct name,
    first-seen order and last-write-wins; but the parse does not always
    return: as soon as [json.loads] answers one of the values it is asked
    about with an exception that is not a [JSONDecodeError],
    [parse_tool_calls] raises that exception and returns no call at all.
    On [<function=get_weather><parameter=city>Paris</parameter></function>]
    the one call is named [get_weather] and its arguments encode the
    mapping of [city] to the string [Paris]. *)
Theorem single_block_outcome {R : Runtime} (name before : str)
        (ps : list written) :
  well_formed name before ps = true ->
  (forall tcs,
     parse_tool_calls (function_block name (before ++ params_text ps)) =
     Ok tcs ->
     exists args,
       tcs =
       [{| id := str_of_Z (hash (id_key (strip name) 0 0) mod 1000000000);
           type := lit "function";
           function := {| name := strip name;
                          arguments := json_dumps args |} |}] /\
       map fst args = first_seen (map fst (entries ps)) /\
       NoDup (map fst args) /\
       length args = length (first_seen (map fst (entries ps))) /\
       (NoDup (map fst (entries ps)) -> length args = length ps) /\
       (forall k, dict_get k args = last_value k (entries ps))) /\
  (forallb (fun w => decodes (strip (w_value w))) ps = false ->
   parse_tool_calls (function_block name (before ++ params_text ps)) =
   Raise OtherError) /\
  parse_tool_calls
    (lit "<function=get_weather><parameter=city>Paris</parameter></function>")
  = Ok [{| id := str_of_Z (hash (lit "get_weather_0_0") mod 1000000000);
           type := lit "function";
           function :=
             {| name := lit "get_weather";
                arguments := json_dumps [(lit "city", PStr (lit "Paris"))] |} |}].
Proof.
  intros Hwf.
  assert (Hraise :
            forallb (fun w => decodes (strip (w_value w))) ps = false ->
            parse_tool_calls (function_block name (before ++ params_text ps))
            = Raise OtherError).
  { intros Hdec. pose proof Hwf as Hwf'. unfold well_formed in Hwf'.
    apply andb_true_iff in Hwf' as [Hwf' Hbody].
    apply andb_true_iff in Hwf' as [Hwf' Hps].
    apply andb_true_iff in Hwf' as [Hname Hbefore].
    apply negb_true_iff in Hname, Hbefore, Hbody.
    unfold parse_tool_calls.
    rewrite findall_function_block by assumption.
    apply parse_blocks_raises. cbn [existsb snd]. rewrite orb_false_r.
    assert (Hparams : findall2 param_pattern (before ++ params_text ps) =
                      map (fun w => (w_name w, w_value w)) ps).
    { unfold findall2, findall.
      change param_pattern
        with (Lit (60%N :: lit "parameter=") ::
              [Lazy true; Lit (lit ">"); Lazy true; Lit (lit "</parameter>")]).
      rewrite findall_sep by exact Hbefore.
      now apply findall_params. }
    rewrite Hparams. now apply undecodable_param. }
  split; [|split; [exact Hraise | reflexivity]].
  intros tcs Hparse.
  destruct (forallb (fun w => decodes (strip (w_value w))) ps) eqn:Hdec.
  - destruct (single_block_returns name before ps Hwf Hdec)
      as [[args [Hp Hargs]] _].
    exists args. rewrite Hp in Hparse. injection Hparse as <-.
    split; [reflexivity | exact Hargs].
  - rewrite (Hraise eq_refl) in Hparse. discriminate.
Qed.

Lemma single_block_outcome_witness :
  well_formed (lit "f") [] deep_params = true /\
  forallb (fun w => @decodes Limited.runtime (strip (w_value w)))
          deep_params = false /\
  @parse_tool_calls Limited.runtime
    (function_block (lit "f") ([] ++ params_text deep_params))
  = Raise OtherError.
Proof.
  split; [reflexivity|]. split; [reflexivity|].
  destruct (@single_block_outcome Limited.runtime (lit "f") [] deep_params
              eq_refl) as [_ [Hraise _]].
  apply Hraise. reflexivity.
Defined.

(** C4, as the spec states it, fails: the text [1 <] contains no marker,
    yet it ends in the first character of one and
    [has_partial_tool_call] is true on it. *)
Lemma no_markup_claim_counterexample :
  ~ (forall (R : Runtime) (content : str),
        no_markup content = true ->
        has_partial_tool_call content = false /\
        is_complete_tool_call content = false /\
        parse_tool_calls content = Ok [] /\
        _clean_content content = strip content).
Proof.
  intros H.
  destruct (H Sample.runtime (lit "1 <") eq_refl) as [Hp _].
  vm_compute in Hp. discriminate.
Qed.

(** C4, amended.  For every content in which none of the six markers
    occurs: [is_complete_tool_call] is false, [parse_tool_calls] returns
    the empty list, [_clean_content] returns the content trimmed and
    otherwise unchanged, and [has_partial_tool_call] is false exactly when
    the content does not end in a non-empty strict prefix of a marker. *)
Theorem no_markup_detectors {R : Runtime} (content : str) :
  no_markup content = true ->
  (has_partial_tool_call content = false <->
   ~ ends_in_partial_marker content) /\
  is_complete_tool_call content = false /\
  parse_tool_calls content = Ok [] /\
  _clean_content content = strip content.
Proof.
  intros H.
  assert (Hm : forall marker, In marker markers ->
                              contains marker content = false)
    by (intros marker; now apply no_markup_elim).
  assert (Hopen : contains (lit "<tool_call>") content = false)
    by (apply Hm; unfold markers; simpl; auto).
  assert (Hclose : contains (lit "</tool_call>") content = false)
    by (apply Hm; unfold markers; simpl; auto).
  assert (Hfun : contains (lit "<function=") content = false)
    by (apply Hm; unfold markers; simpl; auto).
  repeat split.
  - unfold has_partial_tool_call.
    assert (E : existsb (fun m => contains m content) markers = false).
    { apply not_true_is_false. intros E.
      apply existsb_exists in E as [m [Hin Hc]].
      rewrite (Hm m Hin) in Hc. discriminate. }
    rewrite E. intros Hp Hends. apply partial_suffix_spec in Hends.
    rewrite Hends in Hp. discriminate.
  - unfold has_partial_tool_call.
    assert (E : existsb (fun m => contains m content) markers = false).
    { apply not_true_is_false. intros E.
      apply existsb_exists in E as [m [Hin Hc]].
      rewrite (Hm m Hin) in Hc. discriminate. }
    rewrite E. intros Hends. apply not_true_is_false. intros Hp.
    apply Hends. now apply partial_suffix_spec.
  - unfold is_complete_tool_call. rewrite Hopen.
    unfold function_span. now apply search_absent.
  - unfold parse_tool_calls, findall2, findall, function_pattern.
    now rewrite findall_absent.
  - unfold _clean_content.
    rewrite remove_spans_absent by assumption.
    rewrite strip_lone_tags_both by congruence. reflexivity.
Qed.

Lemma no_markup_detectors_witness :
  no_markup (lit "  the weather in Paris  ") = true /\
  ((has_partial_tool_call (lit "  the weather in Paris  ") = false <->
    ~ ends_in_partial_marker (lit "  the weather in Paris  ")) /\
   is_complete_tool_call (lit "  the weather in Paris  ") = false /\
   @parse_tool_calls Sample.runtime (lit "  the weather in Paris  ") = Ok [] /\
   _clean_content (lit "  the weather in Paris  ") =
   strip (lit "  the weather in Paris  ")).
Proof.
  split; [reflexivity|].
  apply (@no_markup_detectors Sample.runtime (lit "  the weather in Paris  ")).
  reflexivity.
Defined.

(** C5, as the spec states it, fails: removing the inner function span of
    [<func<function=a></function>tion=b></function>] joins the text around
    it into a new span, which only a second cleaning removes. *)
Lemma clean_idempotent_counterexample :
  ~ (forall x : str, _clean_content (_clean_content x) = _clean_content x).
Proof.
  intros H.
  specialize (H (lit "<func<function=a></function>tion=b></function>")).
  vm_compute in H. discriminate.
Qed.

(** C5, amended.  Cleaning twice is cleaning once exactly when the text
    cleaned once holds no complete wrapped span, no complete function
    span and no lone wrapper tag (an opening tag without any closing tag,
    or a closing tag without any opening tag): for every [x],
    [_clean_content (_clean_content x) = _clean_content x] if and only if
    neither span pattern matches in [_clean_content x] and
    [_clean_content x] contains both wrapper tags or neither. *)
Theorem clean_idempotent_iff (x : str) :
  _clean_content (_clean_content x) = _clean_content x <->
  search wrapped_span (_clean_content x) = false /\
  search function_span (_clean_content x) = false /\
  contains (lit "<tool_call>") (_clean_content x) =
  contains (lit "</tool_call>") (_clean_content x).
Proof.
  rewrite clean_fixed_point. split; [tauto|].
  intros H. split; [|exact H].
  unfold _clean_content. apply strip_idem.
Qed.

(** In the sample runtime, the array of
    [<tool_call><function=f><parameter=x>[1,2,3]</parameter></function></tool_call>]
    is stored decoded, not as a string. *)
Example decoded_array_sample :
  exists i,
    @parse_tool_calls Sample.runtime
      (lit "<tool_call><function=f><parameter=x>[1,2,3]</parameter></function></tool_call>")
    = Ok [{| id := i; type := lit "function";
             function := {| name := lit "f";
                            arguments :=
                              lit "{" ++ Sample.quoted (lit "x") ++
                              lit ": [1, 2, 3]}" |} |}].
Proof. eexists. vm_compute. reflexivity. Qed.

Lemma raises_other_spec {R : Runtime} (value : str) :
  raises_other value = true <->
  (startswith (lit "[") value || startswith (lit "{") value = true /\
   json_loads value = Raise OtherError).
Proof.
  unfold raises_other, looks_json.
  destruct (startswith (lit "[") value || startswith (lit "{") value).
  - destruct (json_loads value) as [v|[|]]; simpl; split;
      try discriminate; try tauto; intros [_ H]; discriminate.
  - simpl. split; [discriminate | intros [H _]; discriminate].
Qed.

(** C6: the fallback to the raw string covers [JSONDecodeError] only.  A
    value that begins with [[] or [{] and makes [json.loads] raise any
    other exception is not stored as a raw string: the exception leaves
    [store_param], and [parse_tool_calls] raises as soon as one of the
    parameters of one of the function blocks of the content has such a
    value.  In the runtime with a recursion limit, the parse of
    [<function=f><parameter=x>[[[1]]]</parameter></function>] raises. *)
Theorem other_exceptions_escape {R : Runtime}
        (arguments : dict (pyval json_value)) (param : str * str)
        (content : str) :
  (startswith (lit "[") (strip (snd param)) ||
   startswith (lit "{") (strip (snd param)) = true /\
   json_loads (strip (snd param)) = Raise OtherError ->
   store_param arguments param = Raise OtherError) /\
  ((exists m p,
       In m (findall2 function_pattern content) /\
       In p (findall2 param_pattern (snd m)) /\
       startswith (lit "[") (strip (snd p)) ||
       startswith (lit "{") (strip (snd p)) = true /\
       json_loads (strip (snd p)) = Raise OtherError) ->
   parse_tool_calls content = Raise OtherError) /\
  @parse_tool_calls Limited.runtime
    (lit "<function=f><parameter=x>[[[1]]]</parameter></function>")
  = Raise OtherError.
Proof.
  split; [|split; [|reflexivity]].
  - intros H. apply store_param_raises. now apply raises_other_spec.
  - intros (m & p & Hm & Hp & H).
    unfold parse_tool_calls. apply parse_blocks_raises.
    apply existsb_exists. exists m. split; [exact Hm|].
    apply existsb_exists. exists p. split; [exact Hp|].
    now apply raises_other_spec.
Qed.

(** C7, as the spec states it, fails: in
    [<tool_call></tool_call><tool_call>] the original text contains the
    closing tag, and yet the opening tag that remains after the wrapped
    span is removed is stripped. *)
Lemma lone_tag_original_counterexample :
  contains (lit "</tool_call>")
           (lit "<tool_call></tool_call><tool_call>") = true /\
  remove_spans (lit "<tool_call></tool_call><tool_call>") =
  lit "<tool_call>" /\
  _clean_content (lit "<tool_call></tool_call><tool_call>") = [].
Proof. split; [|split]; reflexivity. Qed.

(** C7, amended.  The lone-tag checks look at the text that remains after
    the spans are removed, not at the original input.  With [r] the
    remaining text: when [r] contains both tags or neither, no tag is
    stripped; when [r] contains the opening tag and no closing tag, the
    opening tags are stripped (and the check for a lone closing tag then
    runs on the result); when [r] contains the closing tag and no opening
    tag, the closing tags are stripped. *)
Theorem lone_tags_checked_after_removal (content : str) :
  let r := remove_spans content in
  (contains (lit "<tool_call>") r = contains (lit "</tool_call>") r ->
   _clean_content content = strip r) /\
  (contains (lit "<tool_call>") r = true ->
   contains (lit "</tool_call>") r = false ->
   let r' := remove_all (lit "<tool_call>") r in
   _clean_content content =
   strip (if contains (lit "</tool_call>") r' &&
             negb (contains (lit "<tool_call>") r')
          then remove_all (lit "</tool_call>") r' else r')) /\
  (contains (lit "<tool_call>") r = false ->
   contains (lit "</tool_call>") r = true ->
   _clean_content content = strip (remove_all (lit "</tool_call>") r)).
Proof.
  intros r. unfold _clean_content. fold r. split; [|split].
  - intros H. now rewrite strip_lone_tags_both.
  - intros H1 H2. cbv zeta. unfold strip_lone_tags. rewrite H1, H2.
    reflexivity.
  - intros H1 H2. unfold strip_lone_tags. rewrite H1, H2. simpl.
    rewrite H1, H2. reflexivity.
Qed.

(** C8: the ids are the builtin [hash] of the name and the position,
    reduced modulo [1000000000], so that they repeat whatever [hash] is:
    the content of [1000000001] calls is parsed into as many calls, and
    two of them share their id. *)
Theorem ids_collide {R : Runtime} :
  exists tcs,
    parse_tool_calls (many_blocks (S (Z.to_nat 1000000000))) = Ok tcs /\
    length tcs = S (Z.to_nat 1000000000) /\
    ~ NoDup (map id tcs).
Proof.
  unfold parse_tool_calls. rewrite findall_many_blocks.
  destruct (parse_blocks_no_params (S (Z.to_nat 1000000000)) 0 [])
    as [tcs Htcs].
  exists tcs. split; [exact Htcs|].
  destruct (parse_blocks_ids _ _ _ _ Htcs) as [Hlen Hids].
  rewrite repeat_length in Hlen. cbn [length Nat.add] in Hlen.
  split; [exact Hlen|].
  apply (residues_pigeonhole 1000000000); [reflexivity | |].
  - intros s Hs. apply in_map_iff in Hs as [tc [<- Htc]].
    destruct (Hids tc Htc) as [[] | Hh]. exact Hh.
  - rewrite length_map, Hlen. apply Nat.lt_succ_diag_r.
Qed.

(** The same defect on two calls: whenever the hashes of the keys
    [f_0_0] and [f_1_1] agree modulo [1000000000], the two calls of
    [<function=f></function><function=f></function>] share their id. *)
Lemma two_calls_same_residue {R : Runtime} :
  (hash (lit "f_0_0") mod 1000000000 = hash (lit "f_1_1") mod 1000000000)%Z ->
  exists a b,
    parse_tool_calls (lit "<function=f></function><function=f></function>")
    = Ok [a; b] /\ id a = id b.
Proof.
  intros H.
  exists {| id := str_of_Z (hash (lit "f_0_0") mod 1000000000);
            type := lit "function";
            function := {| name := lit "f"; arguments := json_dumps [] |} |}.
  exists {| id := str_of_Z (hash (lit "f_1_1") mod 1000000000);
            type := lit "function";
            function := {| name := lit "f"; arguments := json_dumps [] |} |}.
  split; [reflexivity|]. cbn [id]. now rewrite H.
Qed.

(** C9, as the spec states it, fails: the block [<function=></function>]
    is parsed into a call whose name is empty. *)
Lemma name_nonempty_counterexample :
  ~ (forall (R : Runtime) (content : str) (tcs : list ToolCall) (tc : ToolCall),
        parse_tool_calls content = Ok tcs -> In tc tcs ->
        name (function tc) <> [] /\
        strip (name (function tc)) = name (function tc)).
Proof.
  intros H.
  assert (E : exists tc,
             @parse_tool_calls Sample.runtime (lit "<function=></function>")
             = Ok [tc] /\ name (function tc) = [])
    by (eexists; split; reflexivity).
  destruct E as [tc [E Hname]].
  destruct (H Sample.runtime _ _ tc E (or_introl eq_refl)) as [Hne _].
  now apply Hne.
Qed.

(** C9, amended.  Every call returned by [parse_tool_calls] carries the
    trimmed text that one of the function blocks of the content has
    between [<function=] and [>]: the name equals its own trim, and it is
    empty exactly when that text is empty or blank. *)
Theorem names_are_trimmed {R : Runtime} (content : str)
        (tcs : list ToolCall) (tc : ToolCall) :
  parse_tool_calls content = Ok tcs -> In tc tcs ->
  strip (name (function tc)) = name (function tc) /\
  exists raw,
    In raw (map fst (findall2 function_pattern content)) /\
    name (function tc) = strip raw /\
    (name (function tc) = [] <-> forallb is_space raw = true).
Proof.
  intros H Hin. unfold parse_tool_calls in H.
  destruct (parse_blocks_names _ _ _ _ H tc Hin) as [[] | [m [Hm Hn]]].
  rewrite Hn. split; [apply strip_idem|].
  exists (fst m). split; [now apply in_map|]. split; [reflexivity|].
  apply strip_nil_iff.
Qed.

Lemma names_are_trimmed_witness :
  exists tc,
    @parse_tool_calls Sample.runtime
      (lit "<function= get_weather ></function>") = Ok [tc] /\
    In tc [tc] /\
    strip (name (function tc)) = name (function tc) /\
    exists raw,
      In raw (map fst (findall2 function_pattern
                         (lit "<function= get_weather ></function>"))) /\
      name (function tc) = strip raw /\
      (name (function tc) = [] <-> forallb is_space raw = true).
Proof.
  eexists. split; [reflexivity|]. split; [left; reflexivity|].
  apply (@names_are_trimmed Sample.runtime
           (lit "<function= get_weather ></function>") _ _ eq_refl
           (or_introl eq_refl)).
Defined.

(** C10.  Whenever [is_complete_tool_call content] is true,
    [has_partial_tool_call content] is true as well: a complete tool call
    contains a structural marker. *)
Theorem complete_implies_partial (content : str) :
  is_complete_tool_call content = true ->
  has_partial_tool_call content = true.
Proof.
  intros H. destruct (contains (lit "<tool_call>") content) eqn:E.
  - apply (marker_present content (lit "<tool_call>")); [|exact E].
    unfold markers; simpl; auto.
  - apply (marker_present content (lit "<function=")).
    + unfold markers; simpl; auto.
    + now apply is_complete_function_open.
Qed.

Lemma complete_implies_partial_witness :
  is_complete_tool_call (lit "<function=f></function>") = true /\
  has_partial_tool_call (lit "<function=f></function>") = true.
Proof.
  split; [reflexivity|].
  apply (complete_implies_partial (lit "<function=f></function>")).
  reflexivity.
Defined.

(** * Further properties *)

(** ** Model selection *)

Lemma greedy_loop_end (s : str) :
  ReGreedy.greedy_loop (fun r : str => Some r) s <> None.
Proof.
  induction s as [|c s IH]; simpl; [congruence|].
  destruct (N.eqb c 10); [congruence|].
  destruct (ReGreedy.greedy_loop (fun r : str => Some r) s);
    [congruence | contradiction].
Qed.

(** [re.match(r'text.*', s)] is the prefix test. *)
Lemma re_match_text_dotstar (a s : str) :
  ReGreedy.re_match [ReGreedy.Text a; ReGreedy.DotStar] s = startswith a s.
Proof.
  unfold ReGreedy.re_match. cbn [ReGreedy.match_start].
  destruct (strip_prefix a s) as [r|] eqn:E.
  - apply strip_prefix_spec in E. subst s. rewrite startswith_app.
    destruct (ReGreedy.greedy_loop (fun s : str => Some s) r) eqn:G;
      [reflexivity | exfalso; exact (greedy_loop_end r G)].
  - apply strip_prefix_startswith in E. now rewrite E.
Qed.

(** X1.  [can_handle_model] accepts a name exactly when the name is not
    empty and its lower-cased form begins with [qwen]; what follows the
    prefix, a newline included, plays no part. *)
Theorem can_handle_model_iff {C : Casing} (model_name : str) :
  can_handle_model model_name = true <->
  model_name <> [] /\ exists rest, lower model_name = lit "qwen" ++ rest.
Proof.
  rewrite <- startswith_spec. unfold can_handle_model.
  destruct model_name as [|c s].
  - split; [discriminate | intros [H _]; exfalso; now apply H].
  - cbv zeta. unfold QWEN_MODEL_PATTERNS. cbn [existsb].
    rewrite re_match_text_dotstar, orb_false_r.
    split; [intros H; split; [discriminate | exact H] | intros [_ H]; exact H].
Qed.

(** ** Streaming *)

Lemma has_partial_suffix (content : str) :
  ends_in_partial_marker content -> has_partial_tool_call content = true.
Proof.
  intros H. apply partial_suffix_spec in H. unfold has_partial_tool_call.
  rewrite H.
  destruct (existsb (fun marker => contains marker content) markers);
    reflexivity.
Qed.

(** X2.  While a marker arrives character by character, the detector
    holds the text back: whatever stands before the marker and after it,
    [has_partial_tool_call] is true on every prefix of the text that
    reaches into the marker. *)
Theorem marker_in_progress (u marker rest : str) (k : nat) :
  In marker markers -> 0 < k ->
  has_partial_tool_call (u ++ firstn k (marker ++ rest)) = true.
Proof.
  intros Hin Hk. rewrite firstn_app.
  destruct (le_lt_dec (length marker) k) as [Hle | Hlt].
  - rewrite firstn_all2 by exact Hle.
    apply (marker_present _ marker Hin). apply contains_app_intro.
  - replace (k - length marker) with 0 by lia.
    rewrite firstn_O, app_nil_r.
    apply has_partial_suffix. exists marker, k, u. auto.
Qed.

Lemma marker_in_progress_witness :
  In (lit "<function=") markers /\ 0 < 3 /\
  has_partial_tool_call
    (lit "Sure. " ++ firstn 3 (lit "<function=" ++ lit "f></function>"))
  = true.
Proof.
  split; [right; right; left; reflexivity|]. split; [lia|].
  apply (marker_in_progress (lit "Sure. ") (lit "<function=")
                            (lit "f></function>") 3);
    [right; right; left; reflexivity | lia].
Defined.

Lemma has_partial_false_no_markup (content : str) :
  has_partial_tool_call content = false -> no_markup content = true.
Proof.
  unfold has_partial_tool_call, no_markup. intros H.
  destruct (existsb (fun marker => contains marker content) markers) eqn:E;
    [discriminate|].
  apply forallb_forall. intros m Hm. apply negb_true_iff.
  apply not_true_is_false. intros Hc.
  assert (E' : existsb (fun marker => contains marker content) markers = true)
    by (apply existsb_exists; exists m; auto).
  congruence.
Qed.

(** X3.  Text on which [has_partial_tool_call] is false is plain prose
    for the other three operations: it is not complete, the parser finds
    no call in it, and cleaning only trims it. *)
Theorem quiet_content_is_prose {R : Runtime} (content : str) :
  has_partial_tool_call content = false ->
  is_complete_tool_call content = false /\
  parse_tool_calls content = Ok [] /\
  _clean_content content = strip content.
Proof.
  intros H. apply has_partial_false_no_markup in H.
  assert (Hopen : contains (lit "<tool_call>") content = false)
    by (apply no_markup_elim; [exact H | unfold markers; simpl; auto]).
  assert (Hclose : contains (lit "</tool_call>") content = false)
    by (apply no_markup_elim; [exact H | unfold markers; simpl; auto]).
  assert (Hfun : contains (lit "<function=") content = false)
    by (apply no_markup_elim; [exact H | unfold markers; simpl; auto]).
  split; [|split].
  - unfold is_complete_tool_call. rewrite Hopen.
    unfold function_span. now apply search_absent.
  - unfold parse_tool_calls, findall2, findall, function_pattern.
    now rewrite findall_absent.
  - unfold _clean_content. rewrite remove_spans_absent by assumption.
    rewrite strip_lone_tags_both by congruence. reflexivity.
Qed.

Lemma quiet_content_is_prose_witness :
  has_partial_tool_call (lit " It is sunny in Paris. ") = false /\
  is_complete_tool_call (lit " It is sunny in Paris. ") = false /\
  @parse_tool_calls Sample.runtime (lit " It is sunny in Paris. ") = Ok [] /\
  _clean_content (lit " It is sunny in Paris. ") =
  strip (lit " It is sunny in Paris. ").
Proof.
  split; [reflexivity|].
  apply (@quiet_content_is_prose Sample.runtime
           (lit " It is sunny in Paris. ")).
  reflexivity.
Defined.

(** ** The calls of a parse *)

Section Calls.

Context {R : Runtime}.

(** The loop appends one call per block to the calls collected so far. *)
Lemma parse_blocks_shape (function_matches : list (str * str)) :
  forall i tool_calls result,
    parse_blocks function_matches i tool_calls = Ok result ->
    exists new,
      result = tool_calls ++ new /\
      map (fun tc => name (function tc)) new =
      map (fun m => strip (fst m)) function_matches /\
      Forall (fun tc => type tc = lit "function") new /\
      Forall (fun tc => exists n, (0 <= n < 1000000000)%Z /\
                                  id tc = str_of_Z n) new.
Proof.
  induction function_matches as [|[fn pb] rest IH];
    intros i tool_calls result H.
  - injection H as <-. exists []. rewrite app_nil_r. auto.
  - rewrite parse_blocks_cons in H.
    destruct (store_params (findall2 param_pattern pb) []) as [args|e];
      [|discriminate].
    cbn [bind] in H. apply IH in H as (new & -> & Hn & Ht & Hi).
    eexists (_ :: new). split; [now rewrite <- app_assoc|].
    cbn [map fst name function]. split; [now rewrite Hn|].
    split; constructor; auto.
    eexists. split; [|reflexivity].
    apply Z.mod_pos_bound. reflexivity.
Qed.

End Calls.

(** X4.  Whatever the content, a parse that returns has made one call per
    match of the function pattern, in document order: the names of the
    calls are the trimmed names of the matches, every call has the type
    [function], and every id is the decimal writing of a number below
    [1000000000]. *)
Theorem calls_follow_matches {R : Runtime} (content : str)
        (tcs : list ToolCall) :
  parse_tool_calls content = Ok tcs ->
  map (fun tc => name (function tc)) tcs =
  map (fun m => strip (fst m)) (findall2 function_pattern content) /\
  length tcs = length (findall2 function_pattern content) /\
  Forall (fun tc => type tc = lit "function") tcs /\
  Forall (fun tc => exists n, (0 <= n < 1000000000)%Z /\
                              id tc = str_of_Z n) tcs.
Proof.
  intros H. apply parse_blocks_shape in H as (new & -> & Hn & Ht & Hi).
  cbn [app]. split; [exact Hn|]. split; [|auto].
  rewrite <- (length_map (fun tc => name (function tc))), Hn.
  apply length_map.
Qed.

Lemma calls_follow_matches_witness :
  exists tcs,
    @parse_tool_calls Sample.runtime
      (lit "<function= a ></function> and <function=b></function>") = Ok tcs /\
    map (fun tc => name (function tc)) tcs = [lit "a"; lit "b"] /\
    length tcs = 2 /\
    Forall (fun tc => type tc = lit "function") tcs /\
    Forall (fun tc => exists n, (0 <= n < 1000000000)%Z /\
                                id tc = str_of_Z n) tcs.
Proof.
  eexists. split; [reflexivity|].
  apply (@calls_follow_matches Sample.runtime
           (lit "<function= a ></function> and <function=b></function>")).
  reflexivity.
Defined.

(** ** Text with several calls *)

Lemma findall_skip_pre (a : str) (p : pattern) (pre rest : str) :
  (forall x1 x2, pre = x1 ++ x2 -> x2 <> [] ->
                 startswith a (x2 ++ rest) = false) ->
  findall_from (Lit a :: p) (pre ++ rest) 0 =
  findall_from (Lit a :: p) rest 0.
Proof.
  induction pre as [|c pre IH]; intros H; [reflexivity|].
  change (findall_from (Lit a :: p) ((c :: pre) ++ rest) 0)
    with (match match_here (Lit a :: p) (c :: pre ++ rest) with
          | Some (gs, r) =>
              gs :: findall_from (Lit a :: p) (pre ++ rest)
                      (length (c :: pre ++ rest) - length r - 1)
          | None => findall_from (Lit a :: p) (pre ++ rest) 0
          end).
  rewrite match_here_lit_head.
  - apply IH. intros x1 x2 -> Hne. now apply (H (c :: x1) x2).
  - apply (H [] (c :: pre)); [reflexivity | discriminate].
Qed.

(** The function pattern finds the blocks of a text, and nothing else. *)
Lemma findall_calls_text (bs : list placed) (post : str) :
  forallb placed_ok bs = true ->
  contains (lit "<function=") post = false ->
  findall2 function_pattern (calls_text bs post) =
  map (fun b => (b_name b, b_body b)) bs.
Proof.
  intros Hbs Hpost. unfold findall2, findall.
  induction bs as [|b bs IH].
  - cbn [calls_text map]. unfold function_pattern.
    now rewrite findall_absent.
  - cbn [forallb] in Hbs. apply andb_true_iff in Hbs as [Hb Hbs].
    unfold placed_ok in Hb.
    apply andb_true_iff in Hb as [Hb Hbody].
    apply andb_true_iff in Hb as [Hpre Hname].
    apply negb_true_iff in Hpre, Hname, Hbody.
    cbn [calls_text map]. unfold function_block.
    assert (Hm : match_here function_pattern
                   (lit "<function=" ++ b_name b ++ lit ">" ++ b_body b ++
                    lit "</function>" ++ calls_text bs post)
                 = Some ([b_name b; b_body b], calls_text bs post))
      by (apply match_block; auto).
    unfold function_pattern at 1.
    rewrite findall_skip_pre.
    + fold function_pattern.
      rewrite (findall_match _ _ _ [b_name b; b_body b]); [| discriminate |].
      * cbn [map as_pair]. f_equal. now apply IH.
      * rewrite <- !app_assoc. exact Hm.
    + intros x1 x2 Hx Hne. rewrite <- !app_assoc.
      now apply (no_early_occurrence (lit "<function=") (b_before b) _
                   eq_refl Hpre x1 x2).
Qed.

(** X5.  On a text made of function blocks, each after text without
    [<function=], the parser makes one call per block, in the order of
    the text, named by the trimmed names of the blocks. *)
Theorem calls_in_document_order {R : Runtime} (bs : list placed)
        (post : str) (tcs : list ToolCall) :
  forallb placed_ok bs = true ->
  contains (lit "<function=") post = false ->
  parse_tool_calls (calls_text bs post) = Ok tcs ->
  length tcs = length bs /\
  map (fun tc => name (function tc)) tcs = map (fun b => strip (b_name b)) bs.
Proof.
  intros Hbs Hpost H. unfold parse_tool_calls in H.
  rewrite findall_calls_text in H by assumption.
  apply parse_blocks_shape in H as (new & -> & Hn & _).
  cbn [app]. rewrite map_map in Hn. cbn [fst] in Hn.
  split; [|exact Hn].
  rewrite <- (length_map (fun tc => name (function tc))), Hn.
  apply length_map.
Qed.

(** X6.  What stands around the blocks plays no part in the parse: prose,
    wrapper tags and blanks before, between and after the blocks can be
    taken away without changing the result. *)
Theorem surroundings_ignored {R : Runtime} (bs : list placed) (post : str) :
  forallb placed_ok bs = true ->
  contains (lit "<function=") post = false ->
  parse_tool_calls (calls_text bs post) =
  parse_tool_calls
    (calls_text (map (fun b => ([], b_name b, b_body b)) bs) []).
Proof.
  intros Hbs Hpost. unfold parse_tool_calls.
  rewrite findall_calls_text by assumption.
  rewrite findall_calls_text; [| |reflexivity].
  - now rewrite map_map.
  - rewrite forallb_forall in *. intros b' Hin.
    apply in_map_iff in Hin as [b [<- Hb]]. specialize (Hbs b Hb).
    unfold placed_ok in *. cbn [b_before b_name b_body fst snd].
    apply andb_true_iff in Hbs as [Hbs Hbody].
    apply andb_true_iff in Hbs as [_ Hname].
    now rewrite Hname, Hbody.
Qed.

Lemma calls_in_document_order_witness :
  exists tcs,
    forallb placed_ok sample_calls = true /\
    contains (lit "<function=") sample_post = false /\
    @parse_tool_calls Sample.runtime (calls_text sample_calls sample_post)
    = Ok tcs /\
    length tcs = 2 /\
    map (fun tc => name (function tc)) tcs = [lit "get_weather"; lit "get_time"].
Proof.
  eexists. split; [reflexivity|]. split; [reflexivity|].
  split; [reflexivity|].
  apply (@calls_in_document_order Sample.runtime sample_calls sample_post);
    reflexivity.
Defined.

Lemma surroundings_ignored_witness :
  forallb placed_ok sample_calls = true /\
  contains (lit "<function=") sample_post = false /\
  @parse_tool_calls Sample.runtime (calls_text sample_calls sample_post) =
  @parse_tool_calls Sample.runtime
    (calls_text (map (fun b => ([], b_name b, b_body b)) sample_calls) []).
Proof.
  split; [reflexivity|]. split; [reflexivity|].
  apply (@surroundings_ignored Sample.runtime sample_calls sample_post);
    reflexivity.
Defined.

(** ** Removing a span *)

Lemma contains_app_false (p a b : str) :
  contains p (a ++ b) = false ->
  contains p a = false /\ contains p b = false.
Proof.
  intros H. split; apply not_true_is_false; intros Hc;
    apply contains_spec in Hc as [u [w ->]].
  - rewrite <- !app_assoc in H. now rewrite contains_app_intro in H.
  - rewrite app_assoc in H. now rewrite contains_app_intro in H.
Qed.

Lemma sub_skip (p : pattern) (m rest : str) :
  sub_from p (m ++ rest) (length m) = sub_from p rest 0.
Proof. induction m as [|h m IH]; [reflexivity | exact IH]. Qed.

(** A match is taken out and the scan resumes after it. *)
Lemma sub_match (p : pattern) (m rest : str) (gs : list str) :
  m <> [] -> match_here p (m ++ rest) = Some (gs, rest) ->
  sub_from p (m ++ rest) 0 = sub_from p rest 0.
Proof.
  intros Hne H. destruct m as [|h m]; [congruence|].
  change (sub_from p ((h :: m) ++ rest) 0)
    with (match match_here p ((h :: m) ++ rest) with
          | Some (_, r) =>
              match length ((h :: m) ++ rest) - length r with
              | O => h :: sub_from p (m ++ rest) 0
              | S n => sub_from p (m ++ rest) n
              end
          | None => h :: sub_from p (m ++ rest) 0
          end).
  rewrite H.
  replace (length ((h :: m) ++ rest) - length rest) with (S (length m))
    by (rewrite length_app; cbn [length]; lia).
  apply sub_skip.
Qed.

(** Text in which no match begins is kept. *)
Lemma sub_skip_pre (a : str) (p : pattern) (pre rest : str) :
  (forall x1 x2, pre = x1 ++ x2 -> x2 <> [] ->
                 startswith a (x2 ++ rest) = false) ->
  sub_from (Lit a :: p) (pre ++ rest) 0 =
  pre ++ sub_from (Lit a :: p) rest 0.
Proof.
  induction pre as [|c pre IH]; intros H; [reflexivity|].
  change (sub_from (Lit a :: p) ((c :: pre) ++ rest) 0)
    with (match match_here (Lit a :: p) (c :: pre ++ rest) with
          | Some (_, r) =>
              match length (c :: pre ++ rest) - length r with
              | O => c :: sub_from (Lit a :: p) (pre ++ rest) 0
              | S n => sub_from (Lit a :: p) (pre ++ rest) n
              end
          | None => c :: sub_from (Lit a :: p) (pre ++ rest) 0
          end).
  rewrite match_here_lit_head.
  - cbn [app]. f_equal. apply IH. intros x1 x2 -> Hne.
    now apply (H (c :: x1) x2).
  - apply (H [] (c :: pre)); [reflexivity | discriminate].
Qed.

(** The span patterns on a span as it is written. *)
Lemma match_span (a c x rest : str) :
  unbordered c = true -> contains c x = false ->
  match_here [Lit a; Lazy false; Lit c] (a ++ x ++ c ++ rest) =
  Some ([], rest).
Proof.
  intros Hu Hc. rewrite match_here_lit.
  change (match_here [Lazy false; Lit c] (x ++ c ++ rest))
    with (lazy_loop (match_here (Lit c :: [])) false [] (x ++ c ++ rest)).
  now rewrite (lazy_until c [] false x rest [] [] rest Hu Hc).
Qed.

(** One span [a ++ x ++ c] between [pre] and [post] is taken out. *)
Lemma sub_one_span (a c pre x post : str) :
  unbordered a = true -> unbordered c = true -> a <> [] ->
  contains a pre = false -> contains c x = false ->
  contains a post = false ->
  sub [Lit a; Lazy false; Lit c] (pre ++ a ++ x ++ c ++ post) = pre ++ post.
Proof.
  intros Ha Hc Hne Hpre Hx Hpost. unfold sub.
  rewrite sub_skip_pre.
  - f_equal.
    replace (a ++ x ++ c ++ post) with ((a ++ x ++ c) ++ post)
      by now rewrite <- !app_assoc.
    rewrite (sub_match _ _ _ []).
    + now apply sub_absent.
    + destruct a; [congruence | discriminate].
    + rewrite <- !app_assoc. now apply match_span.
  - intros x1 x2 Hx1 Hne2.
    now apply (no_early_occurrence a pre _ Ha Hpre x1 x2).
Qed.

(** X7.  A wrapped span standing in text without tool-call tags is
    removed as a unit, with everything between its tags, and the text
    around it is joined and trimmed. *)
Theorem clean_removes_wrapped_span (pre x post : str) :
  contains (lit "</tool_call>") x = false ->
  contains (lit "<tool_call>") (pre ++ post) = false ->
  contains (lit "</tool_call>") (pre ++ post) = false ->
  contains (lit "<function=") (pre ++ post) = false ->
  _clean_content (pre ++ lit "<tool_call>" ++ x ++ lit "</tool_call>" ++ post)
  = strip (pre ++ post).
Proof.
  intros Hx Hopen Hclose Hfun. unfold _clean_content, remove_spans.
  destruct (contains_app_false _ _ _ Hopen) as [Hpre Hpost].
  unfold wrapped_span at 1.
  rewrite sub_one_span by (auto; discriminate).
  unfold function_span. rewrite sub_absent by exact Hfun.
  rewrite strip_lone_tags_both by congruence. reflexivity.
Qed.

Lemma clean_removes_wrapped_span_witness :
  contains (lit "</tool_call>") (lit "<function=f></function>") = false /\
  contains (lit "<tool_call>") (lit " Sure: " ++ lit " done. ") = false /\
  contains (lit "</tool_call>") (lit " Sure: " ++ lit " done. ") = false /\
  contains (lit "<function=") (lit " Sure: " ++ lit " done. ") = false /\
  _clean_content
    (lit " Sure: " ++ lit "<tool_call>" ++ lit "<function=f></function>" ++
     lit "</tool_call>" ++ lit " done. ")
  = strip (lit " Sure: " ++ lit " done. ").
Proof.
  split; [reflexivity|]. split; [reflexivity|]. split; [reflexivity|].
  split; [reflexivity|].
  apply (clean_removes_wrapped_span (lit " Sure: ")
           (lit "<function=f></function>") (lit " done. "));
    reflexivity.
Defined.

(** X8.  A function span standing alone, in a content without an opening
    wrapper tag, is removed as a unit and the text around it is joined
    and trimmed. *)
Theorem clean_removes_function_span (pre x post : str) :
  contains (lit "</function>") x = false ->
  contains (lit "<tool_call>")
    (pre ++ lit "<function=" ++ x ++ lit "</function>" ++ post) = false ->
  contains (lit "<tool_call>") (pre ++ post) = false ->
  contains (lit "</tool_call>") (pre ++ post) = false ->
  contains (lit "<function=") (pre ++ post) = false ->
  _clean_content (pre ++ lit "<function=" ++ x ++ lit "</function>" ++ post)
  = strip (pre ++ post).
Proof.
  intros Hx Hcontent Hopen Hclose Hfun. unfold _clean_content, remove_spans.
  destruct (contains_app_false _ _ _ Hfun) as [Hpre Hpost].
  unfold wrapped_span. rewrite sub_absent by exact Hcontent.
  unfold function_span.
  rewrite sub_one_span by (auto; discriminate).
  rewrite strip_lone_tags_both by congruence. reflexivity.
Qed.

Lemma clean_removes_function_span_witness :
  contains (lit "</function>")
           (lit "get_weather><parameter=city>Paris</parameter>") = false /\
  contains (lit "<tool_call>")
    (lit "Checking. " ++ lit "<function=" ++
     lit "get_weather><parameter=city>Paris</parameter>" ++
     lit "</function>" ++ lit " One moment.") = false /\
  contains (lit "<tool_call>") (lit "Checking. " ++ lit " One moment.") = false /\
  contains (lit "</tool_call>") (lit "Checking. " ++ lit " One moment.") = false /\
  contains (lit "<function=") (lit "Checking. " ++ lit " One moment.") = false /\
  _clean_content
    (lit "Checking. " ++ lit "<function=" ++
     lit "get_weather><parameter=city>Paris</parameter>" ++
     lit "</function>" ++ lit " One moment.")
  = strip (lit "Checking. " ++ lit " One moment.").
Proof.
  split; [reflexivity|]. split; [reflexivity|]. split; [reflexivity|].
  split; [reflexivity|]. split; [reflexivity|].
  apply (clean_removes_function_span (lit "Checking. ")
           (lit "get_weather><parameter=city>Paris</parameter>")
           (lit " One moment."));
    reflexivity.
Defined.

(** ** What cleaning returns *)

(** X9.  The text [_clean_content] returns is trimmed: it is empty, or
    its first and its last character are not whitespace. *)
Theorem clean_output_trimmed (content : str) :
  match _clean_content content with
  | [] => True
  | c :: t => is_space c = false /\ is_space (last t c) = false
  end.
Proof.
  destruct (_clean_content content) as [|c t] eqn:E; [exact I|].
  unfold _clean_content in E. now apply (strip_ends _ _ _ E).
Qed.

(** X10.  Cleaning only takes characters away: the text it returns is
    the content with some characters left out, in the same order, and is
    never longer than the content. *)
Theorem clean_only_removes (content : str) :
  subseq (_clean_content content) content /\
  length (_clean_content content) <= length content.
Proof.
  assert (H : subseq (_clean_content content) content).
  { unfold _clean_content, remove_spans.
    eapply subseq_trans; [apply strip_subseq|].
    eapply subseq_trans; [apply strip_lone_tags_subseq|].
    eapply subseq_trans; apply sub_from_subseq. }
  split; [exact H | now apply subseq_length].
Qed.

(** ** The detectors and the parser *)

Lemma lazy_loop_exists (k : str -> option matched) (c : bool) (x y : str) :
  k y <> None -> forall acc, lazy_loop k c acc (x ++ y) <> None.
Proof.
  intros Hk. induction x as [|h x IH]; intros acc.
  - cbn [app]. destruct (k y) as [[gs r]|] eqn:E; [|contradiction].
    destruct y; simpl; rewrite E; discriminate.
  - simpl. destruct (k (h :: x ++ y)) as [[gs r]|]; [discriminate | apply IH].
Qed.

(** A span pattern matches wherever a span is written, whether or not
    the closing text stands earlier as well. *)
Lemma span_match_exists (a c : str) (f : bool) (x r : str) :
  match_here [Lit a; Lazy f; Lit c] (a ++ x ++ c ++ r) <> None.
Proof.
  rewrite match_here_lit.
  change (match_here [Lazy f; Lit c] (x ++ c ++ r))
    with (lazy_loop (match_here [Lit c]) f [] (x ++ c ++ r)).
  apply lazy_loop_exists. rewrite match_here_lit. discriminate.
Qed.

Lemma search_intro (p : pattern) (u s : str) :
  match_here p s <> None -> search p (u ++ s) = true.
Proof.
  intros H. induction u as [|h u IH].
  - cbn [app]. destruct (match_here p s) as [m|] eqn:E; [|contradiction].
    destruct s; simpl; rewrite E; reflexivity.
  - simpl. now destruct (match_here p (h :: u ++ s)).
Qed.

(** The shape of a match of the two-group patterns. *)
Lemma match_block_shape (a g c : str) (c1 c2 : bool) (s : str)
      (gs : list str) (r : str) :
  match_here [Lit a; Lazy c1; Lit g; Lazy c2; Lit c] s = Some (gs, r) ->
  exists n b, s = a ++ n ++ g ++ b ++ c ++ r.
Proof.
  cbn [match_here].
  destruct (strip_prefix a s) as [s1|] eqn:Ea; [|discriminate].
  apply strip_prefix_spec in Ea. subst s. intros H.
  apply lazy_loop_sound in H as (n & y & gs' & -> & Hk & _ & _).
  change (match_here [Lit g; Lazy c2; Lit c] y = Some (gs', r)) in Hk.
  apply match_span_shape in Hk as [b [-> _]].
  exists n, b. reflexivity.
Qed.

Lemma findall_nonempty (p : pattern) (s : str) :
  forall skip, findall_from p s skip <> [] ->
  exists u s', s = u ++ s' /\ match_here p s' <> None.
Proof.
  induction s as [|c s IH]; intros skip H.
  - exists [], []. split; [reflexivity|]. intros E. apply H.
    simpl. rewrite E. now destruct skip.
  - destruct skip as [|k].
    + destruct (match_here p (c :: s)) as [m|] eqn:E.
      * exists [], (c :: s). split; [reflexivity | congruence].
      * assert (H' : findall_from p s 0 <> []).
        { intros E'. apply H.
          change (findall_from p (c :: s) 0)
            with (match match_here p (c :: s) with
                  | Some (gs, r) =>
                      gs :: findall_from p s
                              (length (c :: s) - length r - 1)
                  | None => findall_from p s 0
                  end).
          now rewrite E. }
        destruct (IH 0 H') as (u & s' & -> & Hm).
        exists (c :: u), s'. auto.
    + destruct (IH k H) as (u & s' & -> & Hm).
      exists (c :: u), s'. auto.
Qed.

Lemma findall_none (p : pattern) (s : str) :
  (forall u s', s = u ++ s' -> match_here p s' = None) ->
  forall skip, findall_from p s skip = [].
Proof.
  intros H skip. destruct (findall_from p s skip) eqn:E; [reflexivity|].
  destruct (findall_nonempty p s skip) as (u & s' & Hs & Hm); [congruence|].
  now rewrite (H u s' Hs) in Hm.
Qed.

(** X11.  A content in which the parser finds a call is never taken for
    prose: [has_partial_tool_call] is true on it, and
    [is_complete_tool_call] is true as well unless the content holds an
    opening wrapper tag and no closing one. *)
Theorem parsed_call_is_detected {R : Runtime} (content : str)
        (tcs : list ToolCall) :
  parse_tool_calls content = Ok tcs -> tcs <> [] ->
  has_partial_tool_call content = true /\
  is_complete_tool_call content =
  (if contains (lit "<tool_call>") content
   then contains (lit "</tool_call>") content
   else true).
Proof.
  intros H Hne. unfold parse_tool_calls, findall2, findall in H.
  assert (Hf : findall_from function_pattern content 0 <> []).
  { intros E. rewrite E in H. injection H as <-. now apply Hne. }
  apply findall_nonempty in Hf as (u & s' & -> & Hm).
  destruct (match_here function_pattern s') as [[gs r]|] eqn:E;
    [|contradiction].
  apply match_block_shape in E as (n & b & ->).
  split.
  - apply (marker_present _ (lit "<function=")).
    + unfold markers; simpl; auto.
    + apply contains_app_intro.
  - unfold is_complete_tool_call.
    destruct (contains (lit "<tool_call>") _); [reflexivity|].
    apply search_intro.
    replace (lit "<function=" ++ n ++ lit ">" ++ b ++ lit "</function>" ++ r)
      with (lit "<function=" ++ (n ++ lit ">" ++ b) ++ lit "</function>" ++ r)
      by now rewrite <- !app_assoc.
    apply span_match_exists.
Qed.

Lemma parsed_call_is_detected_witness :
  exists tcs,
    @parse_tool_calls Sample.runtime
      (lit "<tool_call><function=f></function>") = Ok tcs /\
    tcs <> [] /\
    has_partial_tool_call (lit "<tool_call><function=f></function>") = true /\
    is_complete_tool_call (lit "<tool_call><function=f></function>") =
    (if contains (lit "<tool_call>") (lit "<tool_call><function=f></function>")
     then contains (lit "</tool_call>")
                   (lit "<tool_call><function=f></function>")
     else true).
Proof.
  eexists. split; [reflexivity|]. split; [discriminate|].
  eapply (@parsed_call_is_detected Sample.runtime
            (lit "<tool_call><function=f></function>"));
    [reflexivity | discriminate].
Defined.

(** X12.  Completeness lasts while text is appended, as long as the
    appended text does not bring the first opening wrapper tag: a content
    that is complete stays complete. *)
Theorem complete_stays_complete (content z : str) :
  is_complete_tool_call content = true ->
  contains (lit "<tool_call>") (content ++ z) =
  contains (lit "<tool_call>") content ->
  is_complete_tool_call (content ++ z) = true.
Proof.
  unfold is_complete_tool_call. intros H ->.
  destruct (contains (lit "<tool_call>") content).
  - now apply contains_prefix.
  - apply search_shape in H as (u & y & w & ->).
    rewrite <- !app_assoc. apply search_intro. apply span_match_exists.
Qed.

Lemma complete_stays_complete_witness :
  is_complete_tool_call (lit "<function=f></function>") = true /\
  contains (lit "<tool_call>")
           (lit "<function=f></function>" ++ lit " and <function=g>") =
  contains (lit "<tool_call>") (lit "<function=f></function>") /\
  is_complete_tool_call
    (lit "<function=f></function>" ++ lit " and <function=g>") = true.
Proof.
  split; [reflexivity|]. split; [reflexivity|].
  apply (complete_stays_complete (lit "<function=f></function>")
                                 (lit " and <function=g>"));
    reflexivity.
Defined.

(** ** An opening tag that is never closed *)

Lemma last_char_unique (g : char) (d : str) :
  existsb (N.eqb g) d = false ->
  forall u w, d ++ [g] = u ++ g :: w -> w = [] /\ u = d.
Proof.
  induction d as [|c d IH]; intros Hd u w H.
  - destruct u as [|h u].
    + cbn [app] in H. injection H as H. subst w. auto.
    + cbn [app] in H. injection H as _ H. destruct u; discriminate.
  - cbn [existsb] in Hd. apply orb_false_iff in Hd as [Hc Hd].
    destruct u as [|h u].
    + cbn [app] in H. injection H as H _. subst c.
      now rewrite N.eqb_refl in Hc.
    + cbn [app] in H. injection H as H1 H. subst h.
      destruct (IH Hd u w H) as [H2 H3]. subst. auto.
Qed.

Lemma app_same_length_tail (u v t1 t2 : str) :
  length t1 = length t2 -> u ++ t1 = v ++ t2 -> t1 = t2.
Proof.
  intros Hlen H. apply app_eq_app in H as [l [[H1 H2] | [H1 H2]]].
  - assert (Hl : length t2 = length l + length t1)
      by (rewrite H2; apply length_app).
    destruct l; [cbn [app] in H2; congruence | cbn [length] in Hl; lia].
  - assert (Hl : length t1 = length l + length t2)
      by (rewrite H2; apply length_app).
    destruct l; [cbn [app] in H2; congruence | cbn [length] in Hl; lia].
Qed.

(** X13.  A function span whose opening tag is never closed by [>] is
    lost without a trace: the content [<function=x</function>], with no
    [>] in [x], is reported complete, the parser finds no call in it, and
    cleaning returns the empty text. *)
Theorem unclosed_opening_tag_is_dropped {R : Runtime} (x : str) :
  existsb (N.eqb 62) x = false ->
  is_complete_tool_call (lit "<function=" ++ x ++ lit "</function>") = true /\
  parse_tool_calls (lit "<function=" ++ x ++ lit "</function>") = Ok [] /\
  _clean_content (lit "<function=" ++ x ++ lit "</function>") = [].
Proof.
  intros Hx.
  assert (Hd : existsb (N.eqb 62) (lit "<function=" ++ x ++ lit "</function")
               = false)
    by (rewrite !existsb_app; apply orb_false_iff; split;
        [reflexivity | apply orb_false_iff; split; [exact Hx | reflexivity]]).
  assert (Hc : lit "<function=" ++ x ++ lit "</function>" =
               (lit "<function=" ++ x ++ lit "</function") ++ [62%N])
    by (rewrite <- !app_assoc; reflexivity).
  assert (Hclose : contains (lit "</function>") x = false).
  { apply not_true_is_false. intros H.
    apply contains_spec in H as [u [w ->]].
    rewrite !existsb_app in Hx.
    change (existsb (N.eqb 62) (lit "</function>")) with true in Hx.
    rewrite orb_true_r in Hx. discriminate. }
  assert (Hopen : contains (lit "<tool_call>")
                    (lit "<function=" ++ x ++ lit "</function>") = false).
  { apply not_true_is_false. intros H.
    apply contains_spec in H as [u [w H]]. rewrite Hc in H.
    change (lit "<tool_call>") with (lit "<tool_call" ++ [62%N]) in H.
    assert (H' : (lit "<function=" ++ x ++ lit "</function") ++ [62%N] =
                 (u ++ lit "<tool_call") ++ 62%N :: w)
      by (rewrite H; now rewrite <- !app_assoc).
    clear H. apply (last_char_unique _ _ Hd) in H' as [_ H].
    rewrite (app_assoc (lit "<function=")) in H.
    apply app_same_length_tail in H; [discriminate | reflexivity]. }
  split; [|split].
  - unfold is_complete_tool_call. rewrite Hopen.
    assert (Hm : match_here function_span
                   (lit "<function=" ++ x ++ lit "</function>") <> None).
    { rewrite <- (app_nil_r (lit "<function=" ++ x ++ lit "</function>")).
      rewrite <- !app_assoc. apply span_match_exists. }
    exact (search_intro function_span [] _ Hm).
  - unfold parse_tool_calls, findall2, findall.
    rewrite findall_none; [reflexivity|].
    intros u s' Hs.
    destruct (match_here function_pattern s') as [[gs r]|] eqn:E;
      [|reflexivity].
    exfalso. apply match_block_shape in E as (n & b & ->).
    rewrite Hc in Hs.
    change (lit ">") with [62%N] in Hs.
    assert (Hs' : (lit "<function=" ++ x ++ lit "</function") ++ [62%N] =
                  (u ++ lit "<function=" ++ n) ++
                  62%N :: (b ++ lit "</function>" ++ r))
      by (rewrite Hs; now rewrite <- !app_assoc).
    clear Hs. apply (last_char_unique _ _ Hd) in Hs' as [Hs _].
    apply app_eq_nil in Hs as [_ Hs]. discriminate.
  - unfold _clean_content, remove_spans.
    unfold wrapped_span. rewrite sub_absent by exact Hopen.
    unfold function_span.
    pose proof (sub_one_span (lit "<function=") (lit "</function>") [] x []
                  eq_refl eq_refl) as Hsub.
    cbn [app] in Hsub. rewrite app_nil_r in Hsub.
    rewrite Hsub; [reflexivity | discriminate | reflexivity | exact Hclose
                   | reflexivity].
Qed.

Lemma unclosed_opening_tag_is_dropped_witness :
  existsb (N.eqb 62) (lit "get_weather city=Paris") = false /\
  is_complete_tool_call
    (lit "<function=" ++ lit "get_weather city=Paris" ++ lit "</function>")
  = true /\
  @parse_tool_calls Sample.runtime
    (lit "<function=" ++ lit "get_weather city=Paris" ++ lit "</function>")
  = Ok [] /\
  _clean_content
    (lit "<function=" ++ lit "get_weather city=Paris" ++ lit "</function>")
  = [].
Proof.
  split; [reflexivity|].
  apply (@unclosed_opening_tag_is_dropped Sample.runtime
           (lit "get_weather city=Paris")).
  reflexivity.
Defined.

(** ** What the function pattern captures *)

Lemma findall_in (p : pattern) (s : str) (gs : list str) :
  forall skip, In gs (findall_from p s skip) ->
  exists u s' r, s = u ++ s' /\ match_here p s' = Some (gs, r).
Proof.
  induction s as [|c s IH]; intros skip H.
  - simpl in H. destruct skip; [|contradiction].
    destruct (match_here p []) as [[gs' r]|] eqn:E; [|contradiction].
    destruct H as [<- | []]. exists [], [], r. auto.
  - destruct skip as [|k].
    + change (findall_from p (c :: s) 0)
        with (match match_here p (c :: s) with
              | Some (gs, r) =>
                  gs :: findall_from p s (length (c :: s) - length r - 1)
              | None => findall_from p s 0
              end) in H.
      destruct (match_here p (c :: s)) as [[gs' r]|] eqn:E.
      * destruct H as [<- | H].
        -- exists [], (c :: s), r. auto.
        -- destruct (IH _ H) as (u & s' & r' & -> & Hm).
           exists (c :: u), s', r'. auto.
      * destruct (IH _ H) as (u & s' & r' & -> & Hm).
        exists (c :: u), s', r'. auto.
    + destruct (IH k H) as (u & s' & r' & -> & Hm).
      exists (c :: u), s', r'. auto.
Qed.

(** A match of the function pattern: its two groups, and no [>] in the
    first. *)
Lemma function_match_groups (s : str) (gs : list str) (r : str) :
  match_here function_pattern s = Some (gs, r) ->
  exists n b,
    gs = [n; b] /\
    s = lit "<function=" ++ n ++ lit ">" ++ b ++ lit "</function>" ++ r /\
    existsb (N.eqb 62) n = false.
Proof.
  unfold function_pattern. cbn [match_here].
  destruct (strip_prefix (lit "<function=") s) as [s1|] eqn:Ea; [|discriminate].
  apply strip_prefix_spec in Ea. subst s. intros H.
  apply lazy_loop_sound in H as (n & y & gs' & -> & Hk & -> & Hmin).
  change (match_here [Lit (lit ">"); Lazy true; Lit (lit "</function>")] y
          = Some (gs', r)) in Hk.
  pose proof Hk as Hshape. apply match_span_shape in Hshape as [b [-> _]].
  rewrite match_here_lit in Hk.
  change (match_here [Lazy true; Lit (lit "</function>")]
                     (b ++ lit "</function>" ++ r))
    with (lazy_loop (match_here [Lit (lit "</function>")]) true []
                    (b ++ lit "</function>" ++ r)) in Hk.
  apply lazy_loop_sound in Hk as (b' & y' & gs'' & Hb & Hk' & -> & _).
  cbn [match_here] in Hk'.
  destruct (strip_prefix (lit "</function>") y') as [r'|] eqn:Ec;
    [|discriminate].
  apply strip_prefix_spec in Ec. subst y'. injection Hk' as <- ->.
  assert (Hbb : b' = b).
  { clear - Hb.
    apply app_eq_app in Hb as [l [[H1 H2] | [H1 H2]]]; subst.
    - apply (f_equal (@length _)) in H2. rewrite !length_app in H2.
      destruct l; [now rewrite app_nil_r | cbn [length] in H2; lia].
    - apply (f_equal (@length _)) in H2. rewrite !length_app in H2.
      destruct l; [now rewrite app_nil_r | cbn [length] in H2; lia]. }
  subst b'. exists n, b. cbn [rev app]. split; [reflexivity|].
  split; [reflexivity|].
  apply not_true_is_false. intros Hgt.
  apply existsb_exists in Hgt as [c [Hin Hc]].
  apply N.eqb_eq in Hc. subst c.
  apply in_split in Hin as [x1 [x3 ->]].
  specialize (Hmin x1 (62%N :: x3) eq_refl ltac:(discriminate)).
  change (match_here
            [Lit (lit ">"); Lazy true; Lit (lit "</function>")]
            (lit ">" ++ x3 ++ lit ">" ++ b ++ lit "</function>" ++ r)
          = None) in Hmin.
  rewrite match_here_lit in Hmin.
  change (lazy_loop (match_here [Lit (lit "</function>")]) true []
                    (x3 ++ lit ">" ++ b ++ lit "</function>" ++ r)
          = None) in Hmin.
  revert Hmin.
  replace (x3 ++ lit ">" ++ b ++ lit "</function>" ++ r)
    with ((x3 ++ lit ">" ++ b) ++ lit "</function>" ++ r)
    by now rewrite <- !app_assoc.
  apply lazy_loop_exists. rewrite match_here_lit. discriminate.
Qed.

Lemma findall2_function_in (content : str) (m : str * str) :
  In m (findall2 function_pattern content) ->
  exists u r,
    content = u ++ lit "<function=" ++ fst m ++ lit ">" ++ snd m ++
              lit "</function>" ++ r /\
    existsb (N.eqb 62) (fst m) = false.
Proof.
  unfold findall2, findall. intros H.
  apply in_map_iff in H as [gs [<- H]].
  apply findall_in in H as (u & s' & r & -> & Hm).
  apply function_match_groups in Hm as (n & b & -> & -> & Hn).
  exists u, r. auto.
Qed.

Section NoParameters.

Context {R : Runtime}.

Lemma parse_blocks_no_param_matches (function_matches : list (str * str)) :
  Forall (fun m => findall2 param_pattern (snd m) = []) function_matches ->
  forall i tool_calls,
  exists new,
    parse_blocks function_matches i tool_calls = Ok (tool_calls ++ new) /\
    Forall (fun tc => arguments (function tc) = json_dumps []) new.
Proof.
  induction 1 as [|[fn pb] rest Hm _ IH]; intros i tool_calls.
  - exists []. rewrite app_nil_r. split; [reflexivity | constructor].
  - rewrite parse_blocks_cons. cbn [snd] in Hm. rewrite Hm.
    cbn [store_params bind].
    destruct (IH (S i) (tool_calls ++
        [{| id := str_of_Z
                    (hash (id_key (strip fn) i (length tool_calls))
                     mod 1000000000);
            type := lit "function";
            function := {| name := strip fn;
                           arguments := json_dumps [] |} |}]))
      as [new [Hp Hf]].
    eexists (_ :: new). rewrite Hp, <- app_assoc. split; [reflexivity|].
    constructor; [reflexivity | exact Hf].
Qed.

End NoParameters.

(** X14.  In a content without [<parameter=] every call of a parse that
    returns carries the encoding of the empty mapping. *)
Theorem no_parameters_empty_mapping {R : Runtime} (content : str)
        (tcs : list ToolCall) :
  contains (lit "<parameter=") content = false ->
  parse_tool_calls content = Ok tcs ->
  Forall (fun tc => arguments (function tc) = json_dumps []) tcs.
Proof.
  intros H Hparse. unfold parse_tool_calls in Hparse.
  destruct (parse_blocks_no_param_matches
              (findall2 function_pattern content)) with (i := 0)
    (tool_calls := @nil ToolCall) as [new [Hp Hf]].
  - apply Forall_forall. intros m Hm.
    apply findall2_function_in in Hm as (u & r & Hc & _).
    unfold findall2, findall, param_pattern.
    rewrite findall_absent; [reflexivity|].
    rewrite Hc in H.
    apply contains_app_false in H as [_ H].
    apply contains_app_false in H as [_ H].
    apply contains_app_false in H as [_ H].
    apply contains_app_false in H as [_ H].
    now apply contains_app_false in H as [H _].
  - rewrite Hp in Hparse. injection Hparse as <-. exact Hf.
Qed.

Lemma no_parameters_empty_mapping_witness :
  exists tcs,
    contains (lit "<parameter=")
             (lit "<function=now></function> <function=today></function>")
    = false /\
    @parse_tool_calls Sample.runtime
      (lit "<function=now></function> <function=today></function>") = Ok tcs /\
    length tcs = 2 /\
    Forall (fun tc => arguments (function tc) =
                      @json_dumps Sample.runtime []) tcs.
Proof.
  eexists. split; [reflexivity|]. split; [reflexivity|].
  split; [reflexivity|].
  apply (@no_parameters_empty_mapping Sample.runtime
           (lit "<function=now></function> <function=today></function>"));
    reflexivity.
Defined.

Lemma existsb_strip (c : char) (s : str) :
  existsb (N.eqb c) s = false -> existsb (N.eqb c) (strip s) = false.
Proof.
  destruct (strip_shape s) as [a [b [Hs _]]]. intros H.
  rewrite Hs, !existsb_app in H.
  apply orb_false_iff in H as [_ H]. now apply orb_false_iff in H as [H _].
Qed.

(** X15.  No name of a parsed call holds the character [>]: the name of
    a block ends at the first [>] after [<function=]. *)
Theorem names_hold_no_gt {R : Runtime} (content : str)
        (tcs : list ToolCall) (tc : ToolCall) :
  parse_tool_calls content = Ok tcs -> In tc tcs ->
  existsb (N.eqb 62) (name (function tc)) = false.
Proof.
  intros H Hin. unfold parse_tool_calls in H.
  destruct (parse_blocks_names _ _ _ _ H tc Hin) as [[] | [m [Hm ->]]].
  apply findall2_function_in in Hm as (u & r & _ & Hn).
  now apply existsb_strip.
Qed.

Lemma names_hold_no_gt_witness :
  exists tc,
    @parse_tool_calls Sample.runtime
      (lit "<function=max a>b></function>") = Ok [tc] /\
    In tc [tc] /\
    name (function tc) = lit "max a" /\
    existsb (N.eqb 62) (name (function tc)) = false.
Proof.
  eexists. split; [reflexivity|]. split; [left; reflexivity|].
  split; [reflexivity|].
  apply (@names_hold_no_gt Sample.runtime
           (lit "<function=max a>b></function>") _ _ eq_refl
           (or_introl eq_refl)).
Defined.
